(** * DogMidiKey: the event-correction engine of [dog_midi_system.py]

    A shallow embedding of [DogMidiSystem] and the properties of its
    melody loading, correction policies, randomness and session control.

    Conventions of the embedding:
    - Python [int] is [Z]; list indices and loop counters are [nat];
    - a Python [float] is the rational it stands for ([Q]).  In
      [find_closest_note], where the comparison of computed scores
      decides the result, every arithmetic operation is rounded to the
      nearest double ([Py.fl]); overflow and underflow are outside the
      model.  The positions of the loader and of the clock are read
      over exact rationals: the rounding of their quotients is not
      modelled;
    - methods of [DogMidiSystem] become functions on the record
      [DogMidiSystem], returning the new record together with the trace of
      calls made to the MIDI collaborator ([Effect]);
    - [random] is a tape of raw draws consumed left to right. *)

From Stdlib Require Import Strings.String.
From Stdlib Require Import ZArith QArith Qround Qabs Qpower Qreduction.
From Stdlib Require Import List Lia Bool Arith.
From Stdlib Require Import Sorting.Sorted Sorting.Permutation.
From Stdlib Require Import Lqa.
Import ListNotations.

Local Open Scope Z_scope.

(* ------------------------------------------------------------------ *)
(** ** Python arithmetic on floats, read over the rationals *)

Module Py.

(** [a // b] on floats: the floor of the quotient, still a float. *)
Definition floordiv (a b : Q) : Q := inject_Z (Qfloor (a / b)).

(** [a % b] on floats, for a positive divisor: [a - floor(a / b) * b]. *)
Definition fmod (a b : Q) : Q := (a - inject_Z (Qfloor (a / b)) * b)%Q.

(** [int(x)]: truncation towards zero. *)
Definition int (x : Q) : Z :=
  if Qle_bool 0 x then Qfloor x else Qceiling x.

(** [abs] on floats. *)
Definition fabs (x : Q) : Q := Qabs x.

(** Rounding to the nearest double (binary64, 53 significant bits,
    ties to the even significand), with no bound on the exponent.
    [binade x] is the exponent [e] with [2^e <= x < 2^(e+1)]; the
    doubles of that binade are the multiples of [2^(e-52)]. *)
Definition round_half_even (q : Q) : Z :=
  let f := Qfloor q in
  match Qcompare (q - inject_Z f) (1 # 2) with
  | Lt => f
  | Gt => f + 1
  | Eq => if Z.even f then f else f + 1
  end.

Definition binade (x : Q) : Z :=
  if Qle_bool 1 x then Z.log2 (Qfloor x)
  else - Z.log2_up (Qceiling (/ x)).

Definition fl_pos (x : Q) : Q :=
  let ulp := Qpower 2 (binade x - 52) in
  (inject_Z (round_half_even (x / ulp)) * ulp)%Q.

Definition fl (x : Q) : Q :=
  let y := Qred x in
  match (Qnum y ?= 0)%Z with
  | Eq => 0%Q
  | Gt => Qred (fl_pos y)
  | Lt => Qred (- fl_pos (- y))
  end.

(** The four operations on doubles: the exact result, rounded. *)
Definition fadd (a b : Q) : Q := fl (a + b).
Definition fsub (a b : Q) : Q := fl (a - b).
Definition fmul (a b : Q) : Q := fl (a * b).
Definition fdiv (a b : Q) : Q := fl (a / b).

(** [a < b] and [a > b] on floats, as booleans. *)
Definition flt (a b : Q) : bool := negb (Qle_bool b a).
Definition fgt (a b : Q) : bool := negb (Qle_bool a b).

(** [enumerate(l)], counting from [i]. *)
Fixpoint enumerate_from {A : Type} (i : nat) (l : list A) : list (nat * A) :=
  match l with
  | [] => []
  | x :: l' => (i, x) :: enumerate_from (S i) l'
  end.

Definition enumerate {A : Type} (l : list A) : list (nat * A) :=
  enumerate_from 0 l.

(** [l * k] on lists: [k] copies of [l] one after the other. *)
Fixpoint list_mul {A : Type} (l : list A) (k : nat) : list A :=
  match k with
  | O => []
  | S k' => l ++ list_mul l k'
  end.

(** What a Python call does: return, or raise a named exception. *)
Inductive outcome : Type :=
| Returned : outcome
| Raised : string -> outcome.

End Py.

(* ------------------------------------------------------------------ *)
(** ** Data model *)

(** [@dataclass NoteEvent]. *)
Record NoteEvent : Type := mkNoteEvent {
  note : Z;
  velocity : Z;
  start_time : Q;
  duration : Q;
  bar : Z;
  beat : Q
}.

(** A [pretty_midi.Note] as the decoder hands it over: its attributes
    [pitch], [velocity], [start] and [end]. *)
Record RawNote : Type := mkRawNote {
  raw_pitch : Z;
  raw_velocity : Z;
  raw_start : Q;
  raw_end : Q
}.

(** A [pretty_midi.Instrument]: only the fields the loader reads. *)
Record Instrument : Type := mkInstrument {
  is_drum : bool;
  notes : list RawNote
}.

(** What [pretty_midi.PrettyMIDI(path)] does: it raises, or it yields the
    tempo array of [get_tempo_changes()[1]] and the instruments. *)
Inductive Decoded : Type :=
| DecodeError : Decoded
| PrettyMIDI : list Q -> list Instrument -> Decoded.

(** A device handle of [pygame.midi]: the device id it was opened on. *)
Definition Handle := nat.

(** The fields of a [DogMidiSystem] object.  [sys_start_time] is the
    attribute [start_time] (the name is taken by [NoteEvent]);
    [melody_index] is [None] while the attribute does not exist yet
    ([hasattr] is false). *)
Record DogMidiSystem : Type := mkSystem {
  original_notes : list NoteEvent;
  current_bar : Z;
  current_beat : Q;
  tempo : Q;
  time_signature : Z * Z;
  is_playing : bool;
  sys_start_time : option Q;
  midi_input : option Handle;
  midi_output : option Handle;
  timing_tolerance : Q;
  pitch_correction_range : Z;
  randomness_factor : Q;
  melody_index : option nat
}.

Definition set_original_notes (s : DogMidiSystem) (l : list NoteEvent) :=
  mkSystem l (current_bar s) (current_beat s) (tempo s) (time_signature s)
    (is_playing s) (sys_start_time s) (midi_input s) (midi_output s)
    (timing_tolerance s) (pitch_correction_range s) (randomness_factor s)
    (melody_index s).

Definition set_tempo (s : DogMidiSystem) (t : Q) :=
  mkSystem (original_notes s) (current_bar s) (current_beat s) t
    (time_signature s) (is_playing s) (sys_start_time s) (midi_input s)
    (midi_output s) (timing_tolerance s) (pitch_correction_range s)
    (randomness_factor s) (melody_index s).

Definition set_is_playing (s : DogMidiSystem) (b : bool) :=
  mkSystem (original_notes s) (current_bar s) (current_beat s) (tempo s)
    (time_signature s) b (sys_start_time s) (midi_input s) (midi_output s)
    (timing_tolerance s) (pitch_correction_range s) (randomness_factor s)
    (melody_index s).

Definition set_start_time (s : DogMidiSystem) (t : option Q) :=
  mkSystem (original_notes s) (current_bar s) (current_beat s) (tempo s)
    (time_signature s) (is_playing s) t (midi_input s) (midi_output s)
    (timing_tolerance s) (pitch_correction_range s) (randomness_factor s)
    (melody_index s).

Definition set_melody_index (s : DogMidiSystem) (i : option nat) :=
  mkSystem (original_notes s) (current_bar s) (current_beat s) (tempo s)
    (time_signature s) (is_playing s) (sys_start_time s) (midi_input s)
    (midi_output s) (timing_tolerance s) (pitch_correction_range s)
    (randomness_factor s) i.

(** The attribute values [__init__] sets before it loads the file and
    opens the devices. *)
Definition init_fields : DogMidiSystem :=
  {| original_notes := [];
     current_bar := 0;
     current_beat := 0%Q;
     tempo := 120%Q;
     time_signature := (4, 4);
     is_playing := false;
     sys_start_time := None;
     midi_input := None;
     midi_output := None;
     timing_tolerance := (1 # 2)%Q;
     pitch_correction_range := 12;
     randomness_factor := (1 # 10)%Q;
     melody_index := None |}.

(* ------------------------------------------------------------------ *)
(** ** Loading the reference melody *)

(** The bar and beat of a start time, as the loop of [load_midi_file]
    computes them (and as [get_current_position] does for elapsed time).
    The tempo is 120 or a non-zero value of the file, so the divisions
    are by non-zero numbers.  The quotient [t / beat_duration] is the
    exact one here; the code has the nearest double, so just before a
    bar line its bar can be one lower. *)
Definition bar_of (tempo : Q) (beats_per_bar : Z) (t : Q) : Z :=
  let beat_duration := (60 / tempo)%Q in
  let total_beats := (t / beat_duration)%Q in
  Py.int (Py.floordiv total_beats (inject_Z beats_per_bar)).

Definition beat_of (tempo : Q) (beats_per_bar : Z) (t : Q) : Q :=
  let beat_duration := (60 / tempo)%Q in
  let total_beats := (t / beat_duration)%Q in
  Py.fmod total_beats (inject_Z beats_per_bar).

(** The body of the inner loop of [load_midi_file]: one [NoteEvent]. *)
Definition note_event_of (tempo : Q) (beats_per_bar : Z) (n : RawNote)
  : NoteEvent :=
  {| note := raw_pitch n;
     velocity := raw_velocity n;
     start_time := raw_start n;
     duration := (raw_end n - raw_start n)%Q;
     bar := bar_of tempo beats_per_bar (raw_start n);
     beat := beat_of tempo beats_per_bar (raw_start n) |}.

(** The notes the two nested loops visit: those of the instruments that
    are not drums, in order. *)
Definition melodic_notes (instruments : list Instrument) : list RawNote :=
  flat_map (fun ins => if is_drum ins then [] else notes ins) instruments.

(** [list.sort(key=lambda x: x.start_time)]: a stable sort; an element
    goes before the first one that does not start earlier. *)
Fixpoint insert_by_start (x : NoteEvent) (l : list NoteEvent)
  : list NoteEvent :=
  match l with
  | [] => [x]
  | y :: l' =>
      if Qle_bool (start_time x) (start_time y) then x :: y :: l'
      else y :: insert_by_start x l'
  end.

Fixpoint sort_by_start_time (l : list NoteEvent) : list NoteEvent :=
  match l with
  | [] => []
  | x :: l' => insert_by_start x (sort_by_start_time l')
  end.

Definition c_major_scale : list Z := [60; 62; 64; 65; 67; 69; 71; 72].

(** The body of the loop of [create_fallback_melody]. *)
Definition fallback_note (tempo : Q) (i : nat) (n : Z) : NoteEvent :=
  let beat_duration := (60 / tempo)%Q in
  {| note := n;
     velocity := 80;
     start_time := (inject_Z (Z.of_nat i) * beat_duration)%Q;
     duration := (beat_duration * (8 # 10))%Q;
     bar := Z.of_nat i / 8;
     beat := (inject_Z (Z.of_nat i mod 8) / 2)%Q |}.

Definition fallback_notes (tempo : Q) : list NoteEvent :=
  map (fun p => fallback_note tempo (fst p) (snd p))
      (Py.enumerate (Py.list_mul c_major_scale 4)).

Definition create_fallback_melody (s : DogMidiSystem) : DogMidiSystem :=
  set_original_notes s (original_notes s ++ fallback_notes (tempo s)).

(** Truth value of a numpy array in [if arr:]: an array of one element
    has the truth of that element; any other array raises [ValueError]
    (here [None]): a longer one because its truth is ambiguous, an empty
    one since numpy 2.2 (before, it was false with a warning;
    [get_tempo_changes] never returns an empty array). *)
Definition array_truth (a : list Q) : option bool :=
  match a with
  | [t] => Some (negb (Qeq_bool t 0))
  | _ => None
  end.

(** [load_midi_file]: every exception of the [try] block lands in the
    handler that builds the fallback melody.  The console lines of the
    loader are not traced. *)
Definition load_midi_file (s : DogMidiSystem) (d : Decoded) : DogMidiSystem :=
  match d with
  | DecodeError => create_fallback_melody s
  | PrettyMIDI tempi instruments =>
      match array_truth tempi with
      | None => create_fallback_melody s
      | Some b =>
          let s1 := if b then set_tempo s (hd 0%Q tempi) else s in
          let events :=
            map (note_event_of (tempo s1) (fst (time_signature s1)))
                (melodic_notes instruments) in
          set_original_notes s1
            (sort_by_start_time (original_notes s1 ++ events))
      end
  end.

(* ------------------------------------------------------------------ *)
(** ** Position clock *)

(** [get_current_position], with [time.time()] passed in as [now].  The
    test [not self.start_time] also holds for a start instant of zero. *)
Definition get_current_position (s : DogMidiSystem) (now : Q) : Z * Q :=
  match sys_start_time s with
  | None => (0, 0%Q)
  | Some t0 =>
      if Qeq_bool t0 0 then (0, 0%Q)
      else
        let elapsed_time := (now - t0)%Q in
        (bar_of (tempo s) (fst (time_signature s)) elapsed_time,
         beat_of (tempo s) (fst (time_signature s)) elapsed_time)
  end.

(* ------------------------------------------------------------------ *)
(** ** Nearest match: [find_closest_note] *)

(** First loop: keep the notes of the current bar and of its neighbours. *)
Definition near_bar (current_bar : Z) (n : NoteEvent) : bool :=
  Z.abs (bar n - current_bar) <=? 1.

Definition candidate_notes (s : DogMidiSystem) (current_bar : Z)
  : list NoteEvent :=
  fold_left (fun acc n => if near_bar current_bar n then acc ++ [n] else acc)
            (original_notes s) [].

(** The quantities of the second loop. *)
Definition pitch_diff (input_note : Z) (n : NoteEvent) : Z :=
  Z.abs (note n - input_note).

Definition beat_diff (current_beat : Q) (n : NoteEvent) : Q :=
  Py.fabs (Py.fsub (beat n) current_beat).

(** The literals [0.7] and [0.3]: the doubles nearest to 7/10 and 3/10. *)
Definition weight_pitch : Q := Eval vm_compute in Py.fl (7 # 10).
Definition weight_beat : Q := Eval vm_compute in Py.fl (3 # 10).

(** [self.timing_tolerance * self.tempo / 60]. *)
Definition tolerance_in_beats (s : DogMidiSystem) : Q :=
  Py.fdiv (Py.fmul (timing_tolerance s) (tempo s)) 60.

(** [pitch_diff * 0.7 + beat_diff * 0.3], each operation rounded. *)
Definition score (input_note : Z) (current_beat : Q) (n : NoteEvent) : Q :=
  Py.fadd (Py.fmul (inject_Z (pitch_diff input_note n)) weight_pitch)
          (Py.fmul (beat_diff current_beat n) weight_beat).

(** [best_score] starts at [float('inf')], here [None]: every score is
    below it. *)
Definition below (sc : Q) (best_score : option Q) : bool :=
  match best_score with
  | None => true
  | Some b => Py.flt sc b
  end.

(** One turn of the second loop on the pair [(best_note, best_score)]. *)
Definition closest_step (s : DogMidiSystem) (input_note : Z) (current_beat : Q)
  (st : option NoteEvent * option Q) (n : NoteEvent)
  : option NoteEvent * option Q :=
  if pitch_diff input_note n >? pitch_correction_range s then st
  else if Py.fgt (beat_diff current_beat n) (tolerance_in_beats s) then st
  else
    let sc := score input_note current_beat n in
    if below sc (snd st) then (Some n, Some sc) else st.

Definition find_closest_note (s : DogMidiSystem) (input_note : Z)
  (current_bar : Z) (current_beat : Q) : option NoteEvent :=
  match candidate_notes s current_bar with
  | [] => None
  | cands =>
      fst (fold_left (closest_step s input_note current_beat) cands
                     (None, None))
  end.

(* ------------------------------------------------------------------ *)
(** ** The random source *)

(** Python's [random] module as a tape of raw draws: each call consumes
    one cell.  [random()] yields a multiple of [2^-53] in [[0,1)];
    [randint(a, b)] yields an integer of [[a, b]].  Every sequence of
    results the real generator can give is the reading of some tape. *)
Record Random : Type := mkRandom {
  tape : nat -> N;
  pos : nat
}.

Definition draw (r : Random) : N * Random :=
  (tape r (pos r), mkRandom (tape r) (S (pos r))).

Definition random (r : Random) : Q * Random :=
  let (w, r') := draw r in
  (Qmake (Z.of_N (w mod 2 ^ 53)) (2 ^ 53), r').

Definition randint (a b : Z) (r : Random) : Z * Random :=
  let (w, r') := draw r in
  (a + Z.of_N w mod (b - a + 1), r').

(** [apply_randomness]. *)
Definition apply_randomness (s : DogMidiSystem) (note0 velocity0 : Z)
  (r : Random) : (Z * Z) * Random :=
  let (u, r1) := random r in
  if Py.flt u (randomness_factor s) then
    let (note_variation, r2) := randint (-2) 2 r1 in
    let note1 := Z.max 0 (Z.min 127 (note0 + note_variation)) in
    let (velocity_variation, r3) := randint (-10) 10 r2 in
    let velocity1 := Z.max 1 (Z.min 127 (velocity0 + velocity_variation)) in
    ((note1, velocity1), r3)
  else ((note0, velocity0), r1).

(* ------------------------------------------------------------------ *)
(** ** The live path: [process_input_note] and the listener *)

(** Calls that leave the object: console lines (without their emoji
    prefix), calls on the [pygame.midi] handles, timers and threads.
    [ConsoleStep i n p] is the line "Melody Step: i/n -> Output: p". *)
Inductive Effect : Type :=
| Console : string -> Effect
| ConsoleStep : nat -> nat -> Z -> Effect
| NoteOn : Handle -> Z -> Z -> Effect
| TimerNoteOff : Q -> Z -> Z -> Effect
| InputClose : Handle -> Effect
| OutputClose : Handle -> Effect
| MidiQuit : Effect
| ThreadStart : Effect.

(** Lines 224 to 232: create the cursor if it is missing, give up on an
    empty melody, else read the note under the cursor and advance it.
    An index outside the list raises [IndexError]. *)
Inductive selection : Type :=
| NoMelody : selection
| Picked : NoteEvent -> selection
| BadIndex : selection.

Definition cursor (s : DogMidiSystem) : nat :=
  match melody_index s with
  | None => O
  | Some i => i
  end.

Definition next_in_melody (s : DogMidiSystem) : DogMidiSystem * selection :=
  let s1 := match melody_index s with
            | None => set_melody_index s (Some O)
            | Some _ => s
            end in
  match original_notes s1 with
  | [] => (s1, NoMelody)
  | _ :: _ =>
      match nth_error (original_notes s1) (cursor s1) with
      | None => (s1, BadIndex)
      | Some note_event =>
          (set_melody_index s1
             (Some ((cursor s1 + 1) mod length (original_notes s1))%nat),
           Picked note_event)
      end
  end.

(** The result of a method call: the object, the random source, what
    left the object, and how the call ended. *)
Record Result : Type := mkResult {
  sys : DogMidiSystem;
  rnd : Random;
  effects : list Effect;
  ended : Py.outcome
}.

Definition process_input_note (s : DogMidiSystem) (input_note velocity0 : Z)
  (r : Random) : Result :=
  match next_in_melody s with
  | (s1, NoMelody) =>
      mkResult s1 r [Console "No original melody loaded."%string] Py.Returned
  | (s1, BadIndex) => mkResult s1 r [] (Py.Raised "IndexError"%string)
  | (s1, Picked note_event) =>
      let '((corrected_note, corrected_velocity), r1) :=
        apply_randomness s1 (note note_event) (velocity note_event) r in
      let sent :=
        match midi_output s1 with
        | Some h => [NoteOn h corrected_note corrected_velocity;
                     TimerNoteOff (1 # 2) corrected_note 0]
        | None => []
        end in
      mkResult s1 r1
        (sent ++ [ConsoleStep (cursor s1) (length (original_notes s1))
                            corrected_note])
        Py.Returned
  end.

(** The note-on messages of a trace, as (pitch, velocity) pairs. *)
Definition emitted (l : list Effect) : list (Z * Z) :=
  flat_map (fun e => match e with
                     | NoteOn _ p v => [(p, v)]
                     | _ => []
                     end) l.

(** The [for event in midi_events] loop of [listen_for_input]: a raw
    message is (status, note, velocity); only note-on messages with a
    positive velocity reach [process_input_note].  An exception ends the
    loop. *)
Fixpoint process_events (s : DogMidiSystem) (r : Random)
  (events : list (Z * Z * Z)) : Result :=
  match events with
  | [] => mkResult s r [] Py.Returned
  | (status, n, v) :: rest =>
      if (144 <=? status) && (status <=? 159) && (v >? 0) then
        let res := process_input_note s n v r in
        match ended res with
        | Py.Raised _ => res
        | Py.Returned =>
            let res' := process_events (sys res) (rnd res) rest in
            mkResult (sys res') (rnd res') (effects res ++ effects res')
                     (ended res')
        end
      else process_events s r rest
  end.

(* ------------------------------------------------------------------ *)
(** ** Session control: [start] and [stop] *)

(** [start], up to the launch of the listener thread; [now] is the value
    of [time.time()].  The loop that follows only prints the position
    until [is_playing] is cleared. *)
Definition start (s : DogMidiSystem) (now : Q)
  : DogMidiSystem * list Effect * Py.outcome :=
  match midi_input s with
  | None =>
      (s,
       [Console "No MIDI input device available. Cannot start system."%string],
       Py.Returned)
  | Some _ =>
      (set_start_time (set_is_playing s true) (Some now),
       [Console "Dog MIDI System started!"%string;
        Console "Let your dog play the keyboard - notes will be automatically corrected to sound musical!"%string;
        ThreadStart],
       Py.Returned)
  end.

(** How [pygame.midi] answers a call, given the calls made before it:
    it returns or it raises.  The source does not fix the answer (what
    closing a handle again, or after [quit], does is the library's
    business), so it is a parameter of [stop_in]. *)
Definition Library : Type := list Effect -> Effect -> Py.outcome.

(** The calls of [stop] on the handles and on [pygame.midi], in order.
    The handles stay in their fields. *)
Definition stop_calls (s : DogMidiSystem) : list Effect :=
  (match midi_input s with Some h => [InputClose h] | None => [] end)
  ++ (match midi_output s with Some h => [OutputClose h] | None => [] end)
  ++ [MidiQuit].

(** Make the calls in order until one raises: the calls made, the one
    that raised included, and how the run ended. *)
Fixpoint call_all (lib : Library) (past : list Effect) (calls : list Effect)
  : list Effect * Py.outcome :=
  match calls with
  | [] => ([], Py.Returned)
  | c :: rest =>
      match lib past c with
      | Py.Raised e => ([c], Py.Raised e)
      | Py.Returned =>
          let (made, how) := call_all lib (past ++ [c]) rest in
          (c :: made, how)
      end
  end.

(** [stop] against a library, after the calls [past]: [is_playing] is
    cleared first; an exception of a call ends the method, and the last
    line is printed only when every call returned. *)
Definition stop_in (lib : Library) (past : list Effect) (s : DogMidiSystem)
  : DogMidiSystem * list Effect * Py.outcome :=
  let (made, how) := call_all lib past (stop_calls s) in
  (set_is_playing s false,
   made ++ match how with
           | Py.Returned => [Console "Dog MIDI System stopped!"%string]
           | Py.Raised _ => []
           end,
   how).

(** [stop(); stop()]: the second call is reached only when the first
    returned. *)
Definition stop_twice_in (lib : Library) (s : DogMidiSystem)
  : DogMidiSystem * list Effect * Py.outcome :=
  let '(s1, t1, how1) := stop_in lib [] s in
  match how1 with
  | Py.Raised _ => (s1, t1, how1)
  | Py.Returned =>
      let '(s2, t2, how2) := stop_in lib t1 s1 in
      (s2, t1 ++ t2, how2)
  end.

(** A library whose calls all return, and one that raises when a handle
    is closed after [quit]. *)
Definition forgiving : Library := fun _ _ => Py.Returned.

Definition strict : Library :=
  fun past c =>
    match c with
    | InputClose _ | OutputClose _ =>
        if existsb (fun e => match e with MidiQuit => true | _ => false end)
                   past
        then Py.Raised "RuntimeError"%string
        else Py.Returned
    | _ => Py.Returned
    end.

(** [stop] when every call on the library returns: the object and the
    calls made.  The handles stay in their fields. *)
Definition stop (s : DogMidiSystem) : DogMidiSystem * list Effect :=
  (set_is_playing s false,
   (match midi_input s with Some h => [InputClose h] | None => [] end)
   ++ (match midi_output s with Some h => [OutputClose h] | None => [] end)
   ++ [MidiQuit; Console "Dog MIDI System stopped!"%string]).

(** Repeated calls of [process_input_note], one per trigger
    (pitch, velocity), threading the object and the random source. *)
Fixpoint feed (s : DogMidiSystem) (r : Random) (triggers : list (Z * Z))
  : DogMidiSystem * Random :=
  match triggers with
  | [] => (s, r)
  | (p, v) :: rest =>
      let res := process_input_note s p v r in
      feed (sys res) (rnd res) rest
  end.

(* ------------------------------------------------------------------ *)
(** ** Predicates used in the statements *)

(** The [try] block of [load_midi_file] raises on this decoder result. *)
Definition load_raises (d : Decoded) : bool :=
  match d with
  | DecodeError => true
  | PrettyMIDI tempi _ =>
      match array_truth tempi with
      | None => true
      | Some _ => false
      end
  end.

(** Order of the reference melody. *)
Definition starts_before (a b : NoteEvent) : Prop :=
  (start_time a <= start_time b)%Q.

(** The notes that start at instant [t]. *)
Definition starting_at (t : Q) (l : list NoteEvent) : list NoteEvent :=
  filter (fun n => Qeq_bool (start_time n) t) l.

(** The score in the words of the specification, over the reals:
    [0.7 * pitchDiff + 0.3 * beatDiff]. *)
Definition exact_score (input_note : Z) (current_beat : Q) (n : NoteEvent)
  : Q :=
  ((7 # 10) * inject_Z (Z.abs (note n - input_note))
   + (3 # 10) * Qabs (beat n - current_beat))%Q.

(** [find_closest_note] as a call on the object: what it returns, the
    object after the call and the calls made on the collaborators.  The
    method assigns no attribute and calls no handle and no timer. *)
Definition find_closest_note_call (s : DogMidiSystem) (input_note : Z)
  (current_bar : Z) (current_beat : Q)
  : option NoteEvent * DogMidiSystem * list Effect :=
  (find_closest_note s input_note current_bar current_beat, s, []).

(** A candidate passes the two filters of the second loop of
    [find_closest_note]. *)
Definition accepted (s : DogMidiSystem) (input_note : Z) (current_beat : Q)
  (n : NoteEvent) : bool :=
  negb (pitch_diff input_note n >? pitch_correction_range s)
  && negb (Py.fgt (beat_diff current_beat n) (tolerance_in_beats s)).

Definition survivors (s : DogMidiSystem) (input_note : Z) (current_bar : Z)
  (current_beat : Q) : list NoteEvent :=
  filter (accepted s input_note current_beat) (candidate_notes s current_bar).

(** What the pair [(best_note, best_score)] of [find_closest_note] is
    after its second loop has seen the notes [l]: unset while no note of
    [l] was accepted, else the first note of least score among the
    accepted ones. *)
Definition best_so_far (s : DogMidiSystem) (input_note : Z) (current_beat : Q)
  (l : list NoteEvent) (st : option NoteEvent * option Q) : Prop :=
  let sc := score input_note current_beat in
  let surv := filter (accepted s input_note current_beat) l in
  match st with
  | (None, None) => surv = []
  | (Some b, Some q) =>
      q = sc b /\
      exists i,
        nth_error surv i = Some b /\
        (forall j m, nth_error surv j = Some m -> (sc b <= sc m)%Q) /\
        (forall j m, (j < i)%nat -> nth_error surv j = Some m ->
                     (sc b < sc m)%Q)
  | _ => False
  end.

(** Number of elements of [l] that satisfy [f]. *)
Definition count_occ_pred {A : Type} (f : A -> bool) (l : list A) : nat :=
  length (filter f l).

(** How often a trace calls [pygame.midi.quit()]. *)
Definition quits (l : list Effect) : nat :=
  count_occ_pred (fun e => match e with MidiQuit => true | _ => false end) l.

(** How often a trace closes input handle [h], output handle [h]. *)
Definition input_closes (h : Handle) (l : list Effect) : nat :=
  count_occ_pred (fun e => match e with
                           | InputClose h' => Nat.eqb h h'
                           | _ => false
                           end) l.

Definition output_closes (h : Handle) (l : list Effect) : nat :=
  count_occ_pred (fun e => match e with
                           | OutputClose h' => Nat.eqb h h'
                           | _ => false
                           end) l.

(** Is [h] the handle stored in the field [o]? *)
Definition holds (h : Handle) (o : option Handle) : bool :=
  match o with
  | Some h' => Nat.eqb h h'
  | None => false
  end.

(** The session is idle: not playing and never started. *)
Definition idle (s : DogMidiSystem) : Prop :=
  is_playing s = false /\ sys_start_time s = None.

Definition spawns_listener (l : list Effect) : bool :=
  existsb (fun e => match e with ThreadStart => true | _ => false end) l.

(* ------------------------------------------------------------------ *)
(** ** Sample sessions *)

(** A session on a three-note melody, with both devices open. *)
Definition three_notes : list NoteEvent :=
  [mkNoteEvent 60 80 0 (2 # 5) 0 0;
   mkNoteEvent 64 90 (1 # 2) (2 # 5) 0 1;
   mkNoteEvent 67 100 1 (2 # 5) 0 2].

Definition sample_session : DogMidiSystem :=
  {| original_notes := three_notes;
     current_bar := 0;
     current_beat := 0%Q;
     tempo := 120%Q;
     time_signature := (4, 4);
     is_playing := false;
     sys_start_time := None;
     midi_input := Some 0%nat;
     midi_output := Some 1%nat;
     timing_tolerance := (1 # 2)%Q;
     pitch_correction_range := 12;
     randomness_factor := (1 # 10)%Q;
     melody_index := None |}.

(** The same session with the randomness factor set to [f]. *)
Definition with_randomness (s : DogMidiSystem) (f : Q) : DogMidiSystem :=
  mkSystem (original_notes s) (current_bar s) (current_beat s) (tempo s)
    (time_signature s) (is_playing s) (sys_start_time s) (midi_input s)
    (midi_output s) (timing_tolerance s) (pitch_correction_range s) f
    (melody_index s).

(** Two notes of pitch 72, in bars 0 and 1, whose beats differ by one
    unit in the last place of a double: 0.5000000000000001 and 0.5. *)
Definition rounded_tie_session : DogMidiSystem :=
  set_original_notes sample_session
    [mkNoteEvent 72 80 (4503599627370497 # 18014398509481984) (2 # 5) 0
                 (4503599627370497 # 9007199254740992);
     mkNoteEvent 72 80 (9 # 4) (2 # 5) 1 (1 # 2)].

(** The notes (pitch 60, beat 7) and (pitch 63, beat 0), with a timing
    tolerance of 4 seconds (8 beats at tempo 120). *)
Definition weight_tie_session : DogMidiSystem :=
  {| original_notes := [mkNoteEvent 60 80 (7 # 2) (2 # 5) 0 7;
                        mkNoteEvent 63 80 4 (2 # 5) 0 0];
     current_bar := 0;
     current_beat := 0%Q;
     tempo := 120%Q;
     time_signature := (4, 4);
     is_playing := false;
     sys_start_time := None;
     midi_input := Some 0%nat;
     midi_output := Some 1%nat;
     timing_tolerance := 4%Q;
     pitch_correction_range := 12;
     randomness_factor := (1 # 10)%Q;
     melody_index := None |}.

(** A random source. *)
Definition sample_random : Random :=
  mkRandom (fun n => (N.of_nat n * 7919 + 3)%N) O.

(* ------------------------------------------------------------------ *)
(** ** Device setup and construction *)

(** An entry of [pygame.midi]'s device table: [dev_input] is the field
    [info[2]] of [get_device_info]; [dev_opens] tells whether opening
    the device ([pygame.midi.Input] or [pygame.midi.Output]) succeeds
    rather than raises. *)
Record Device : Type := mkDevice {
  dev_input : bool;
  dev_opens : bool
}.

Definition set_midi_input (s : DogMidiSystem) (h : option Handle) :=
  mkSystem (original_notes s) (current_bar s) (current_beat s) (tempo s)
    (time_signature s) (is_playing s) (sys_start_time s) h (midi_output s)
    (timing_tolerance s) (pitch_correction_range s) (randomness_factor s)
    (melody_index s).

Definition set_midi_output (s : DogMidiSystem) (h : option Handle) :=
  mkSystem (original_notes s) (current_bar s) (current_beat s) (tempo s)
    (time_signature s) (is_playing s) (sys_start_time s) (midi_input s) h
    (timing_tolerance s) (pitch_correction_range s) (randomness_factor s)
    (melody_index s).

(** The search loops of [setup_midi_devices]: the id of the first device
    that passes the test, counting from [i]. *)
Fixpoint first_device (f : Device -> bool) (i : nat) (devs : list Device)
  : option nat :=
  match devs with
  | [] => None
  | d :: rest => if f d then Some i else first_device f (S i) rest
  end.

Definition device_opens (devs : list Device) (id : nat) : bool :=
  match nth_error devs id with
  | Some d => dev_opens d
  | None => false
  end.

(** The second half of [setup_midi_devices]: the output device is the
    first one whose input flag is off. *)
Definition setup_output (s : DogMidiSystem) (devs : list Device)
  : DogMidiSystem :=
  match first_device (fun d => negb (dev_input d)) 0 devs with
  | Some output_id =>
      if device_opens devs output_id
      then set_midi_output s (Some output_id)
      else s
  | None => s
  end.

(** [setup_midi_devices]: an exception while the input is opened leaves
    the [try] block, so the output is not looked for.  The console lines
    are not traced. *)
Definition setup_midi_devices (s : DogMidiSystem) (devs : list Device)
  : DogMidiSystem :=
  match first_device dev_input 0 devs with
  | Some input_id =>
      if device_opens devs input_id
      then setup_output (set_midi_input s (Some input_id)) devs
      else s
  | None => setup_output s devs
  end.

(** [DogMidiSystem(path)]: the constructor, given what the decoder makes
    of the file and the device table. *)
Definition new_system (d : Decoded) (devs : list Device) : DogMidiSystem :=
  setup_midi_devices (load_midi_file init_fields d) devs.

(* ------------------------------------------------------------------ *)
(** ** The control panel: [DogMidiGUI] *)

(** [collections.deque(maxlen=n).append(x)]: a full deque drops its
    oldest element. *)
Definition deque_append {A : Type} (maxlen : nat) (q : list A) (x : A)
  : list A :=
  match maxlen with
  | O => []
  | S _ => if (length q <? maxlen)%nat then q ++ [x] else tl q ++ [x]
  end.

(** An entry of [note_history]: the keys 'time', 'note', 'velocity'. *)
Record HistoryEntry : Type := mkHistoryEntry {
  entry_time : Q;
  entry_note : Z;
  entry_velocity : Z
}.

Record DogMidiGUI : Type := mkGUI {
  gui_system : option DogMidiSystem;
  note_history : list HistoryEntry;
  is_running : bool
}.

(** [DogMidiGUI.__init__]. *)
Definition new_gui : DogMidiGUI := mkGUI None [] false.

(** [add_note_to_history], with [time.time()] passed in as [now]. *)
Definition add_note_to_history (g : DogMidiGUI) (now : Q) (n v : Z)
  : DogMidiGUI :=
  mkGUI (gui_system g)
        (deque_append 50 (note_history g) (mkHistoryEntry now n v))
        (is_running g).

(** The history after a run of calls of [add_note_to_history]. *)
Definition history_after (g : DogMidiGUI) (es : list HistoryEntry)
  : DogMidiGUI :=
  fold_left (fun g' e => add_note_to_history g' (entry_time e)
                           (entry_note e) (entry_velocity e)) es g.

(** The four assignments of [start_system] on the new object. *)
Definition configure (s : DogMidiSystem) (tempo0 tolerance : Q)
  (pitch_range : Z) (randomness : Q) : DogMidiSystem :=
  mkSystem (original_notes s) (current_bar s) (current_beat s) tempo0
    (time_signature s) (is_playing s) (sys_start_time s) (midi_input s)
    (midi_output s) tolerance pitch_range randomness (melody_index s).

(** [start_system]: build the object, set the four parameters, run
    [start] in a thread (here up to the point where [start] returns or
    has launched the listener), and mark the panel as running. *)
Definition start_system (g : DogMidiGUI) (d : Decoded) (devs : list Device)
  (tempo0 tolerance : Q) (pitch_range : Z) (randomness : Q) (now : Q)
  : DogMidiGUI * list Effect :=
  let s0 := configure (new_system d devs) tempo0 tolerance pitch_range
                      randomness in
  let '(s1, trace, _) := start s0 now in
  (mkGUI (Some s1) (note_history g) true, trace).

(** [stop_system]. *)
Definition stop_system (g : DogMidiGUI) : DogMidiGUI * list Effect :=
  match gui_system g with
  | Some s =>
      let (s', trace) := stop s in
      (mkGUI (Some s') (note_history g) false, trace)
  | None => (g, [])
  end.

(** The two buttons of [sidebar_controls]. *)
Definition press_start (g : DogMidiGUI) (d : Decoded) (devs : list Device)
  (tempo0 tolerance : Q) (pitch_range : Z) (randomness : Q) (now : Q)
  : DogMidiGUI * list Effect :=
  if is_running g then (g, [])
  else start_system g d devs tempo0 tolerance pitch_range randomness now.

Definition press_stop (g : DogMidiGUI) : DogMidiGUI * list Effect :=
  if is_running g then stop_system g else (g, []).

(* ------------------------------------------------------------------ *)
(** ** More predicates used in the statements *)

(** The test of [listen_for_input] on a raw message. *)
Definition is_note_on (e : Z * Z * Z) : bool :=
  let '(status, _, v) := e in
  (144 <=? status) && (status <=? 159) && (v >? 0).

(** The triggers a batch of messages forwards to [process_input_note]. *)
Definition triggers_of (events : list (Z * Z * Z)) : list (Z * Z) :=
  map (fun e => (snd (fst e), snd e)) (filter is_note_on events).

(** The note-off timers of a trace: delay, pitch and velocity. *)
Definition timers (l : list Effect) : list (Q * Z * Z) :=
  flat_map (fun e => match e with
                     | TimerNoteOff d p v => [(d, p, v)]
                     | _ => []
                     end) l.

(** A pitch and a velocity that MIDI can carry. *)
Definition midi_pitch (p : Z) : Prop := 0 <= p <= 127.
Definition midi_velocity (v : Z) : Prop := 1 <= v <= 127.

(** The session has a note under its cursor, or no melody at all: the
    states in which [process_input_note] does not raise. *)
Definition cursor_ok (s : DogMidiSystem) : Prop :=
  original_notes s = [] \/ (cursor s < length (original_notes s))%nat.

(* ================================================================== *)
(** * Properties *)

(* ------------------------------------------------------------------ *)
(** ** The fallback melody *)

Section Fallback.

Variable s : DogMidiSystem.

Lemma enumerate_from_length {A : Type} (l : list A) (i : nat) :
  length (Py.enumerate_from i l) = length l.
Proof.
  revert i; induction l as [|x l IH]; intros i; simpl; [reflexivity|].
  now rewrite IH.
Qed.






Lemma load_raises_fallback (d : Decoded) :
  load_raises d = true ->
  load_midi_file s d = create_fallback_melody s.
Proof.
  destruct d as [|tempi ins]; simpl; [reflexivity|].
  destruct (array_truth tempi); [discriminate | reflexivity].
Qed.

End Fallback.

(** C1, the code at the failing input.  With the tempo of 120 and the
    4/4 signature of a fresh session, the second fallback note (index 1)
    starts at 0.5 s, which the formula of the loader places at bar 0,
    beat 1; [create_fallback_melody] stores beat 1/2.  The stored
    position agrees with the formula at index 0 only: at each of the
    indices 1 to 31 the bar or the beat differs. *)
Theorem fallback_position_differs_from_formula :
  let m := original_notes (load_midi_file init_fields DecodeError) in
  (exists n, nth_error m 1 = Some n /\
             (start_time n == 1 # 2)%Q /\
             bar n = 0 /\ (beat n == 1 # 2)%Q /\
             bar_of 120 4 (start_time n) = 0 /\
             (beat_of 120 4 (start_time n) == 1)%Q /\
             ~ (beat n == beat_of 120 4 (start_time n))%Q) /\
  forallb (fun n => negb ((bar n =? bar_of 120 4 (start_time n))
                          && Qeq_bool (beat n)
                                      (beat_of 120 4 (start_time n))))
          (tl m) = true.
Proof.
  split.
  - eexists. split; [reflexivity|].
    repeat split; try reflexivity.
    intros H. apply Qeq_bool_iff in H. vm_compute in H. discriminate.
  - vm_compute. reflexivity.
Qed.




(* ------------------------------------------------------------------ *)
(** ** The sort of the loader *)

Section Sorting.

Lemma insert_by_start_length (x : NoteEvent) (l : list NoteEvent) :
  length (insert_by_start x l) = S (length l).
Proof.
  induction l as [|y l IH]; simpl; [reflexivity|].
  destruct (Qle_bool (start_time x) (start_time y)); simpl; congruence.
Qed.

Lemma sort_by_start_time_length (l : list NoteEvent) :
  length (sort_by_start_time l) = length l.
Proof.
  induction l as [|x l IH]; simpl; [reflexivity|].
  now rewrite insert_by_start_length, IH.
Qed.

Lemma insert_by_start_perm (x : NoteEvent) (l : list NoteEvent) :
  Permutation (x :: l) (insert_by_start x l).
Proof.
  induction l as [|y l IH]; simpl; [apply Permutation_refl|].
  destruct (Qle_bool (start_time x) (start_time y)).
  - apply Permutation_refl.
  - eapply perm_trans; [apply perm_swap|]. now apply perm_skip.
Qed.

Lemma sort_by_start_time_perm (l : list NoteEvent) :
  Permutation l (sort_by_start_time l).
Proof.
  induction l as [|x l IH]; simpl; [constructor|].
  eapply perm_trans; [apply perm_skip, IH | apply insert_by_start_perm].
Qed.

Lemma insert_by_start_sorted (x : NoteEvent) (l : list NoteEvent) :
  StronglySorted starts_before l ->
  StronglySorted starts_before (insert_by_start x l).
Proof.
  induction 1 as [|y l Hs IH Hall]; simpl.
  - constructor; constructor.
  - destruct (Qle_bool (start_time x) (start_time y)) eqn:E.
    + apply Qle_bool_iff in E.
      constructor; [constructor; assumption|].
      constructor; [exact E|].
      eapply Forall_impl; [|exact Hall].
      intros z Hz. unfold starts_before in *. eapply Qle_trans; eassumption.
    + assert (Hyx : starts_before y x).
      { unfold starts_before.
        destruct (Qlt_le_dec (start_time y) (start_time x)) as [Hlt|Hle].
        - now apply Qlt_le_weak.
        - apply Qle_bool_iff in Hle. congruence. }
      constructor; [exact IH|].
      eapply Permutation_Forall; [apply insert_by_start_perm|].
      constructor; assumption.
Qed.

Lemma sort_by_start_time_sorted (l : list NoteEvent) :
  StronglySorted starts_before (sort_by_start_time l).
Proof.
  induction l as [|x l IH]; simpl; [constructor|].
  now apply insert_by_start_sorted.
Qed.

(** Insertion never moves a note past another one with the same start. *)
Lemma insert_by_start_stable (t : Q) (x : NoteEvent) (l : list NoteEvent) :
  starting_at t (insert_by_start x l) = starting_at t (x :: l).
Proof.
  induction l as [|y l IH]; [reflexivity|].
  simpl insert_by_start.
  destruct (Qle_bool (start_time x) (start_time y)) eqn:E; [reflexivity|].
  unfold starting_at in *. simpl in *. rewrite IH.
  destruct (Qeq_bool (start_time x) t) eqn:Ex; [|reflexivity].
  destruct (Qeq_bool (start_time y) t) eqn:Ey; [|reflexivity].
  apply Qeq_bool_iff in Ex, Ey.
  assert (Hle : (start_time x <= start_time y)%Q).
  { rewrite Ex, Ey. apply Qle_refl. }
  apply Qle_bool_iff in Hle. congruence.
Qed.

Lemma sort_by_start_time_stable (t : Q) (l : list NoteEvent) :
  starting_at t (sort_by_start_time l) = starting_at t l.
Proof.
  induction l as [|x l IH]; [reflexivity|].
  simpl sort_by_start_time. rewrite insert_by_start_stable.
  unfold starting_at in *. simpl. now rewrite IH.
Qed.

End Sorting.

(** C9, the code at the failing input.  A file with two tempo entries
    decodes, but the truth test of its tempo array (line 60) raises, and
    the handler drops the notes of the file for the fallback scale.  So
    for every file with two or more tempo entries the melody is the 32
    fallback notes; for the file below, which holds two notes, the
    output has 32 notes, not 2, and no note of the file is in it. *)
Theorem multi_tempo_file_loses_its_notes :
  (forall (t1 t2 : Q) (rest : list Q) (instruments : list Instrument),
     original_notes
       (load_midi_file init_fields (PrettyMIDI (t1 :: t2 :: rest) instruments))
     = fallback_notes 120) /\
  let raw := [mkRawNote 64 90 (1 # 2) 1; mkRawNote 61 80 0 (1 # 2)] in
  let d := PrettyMIDI [120%Q; 90%Q] [mkInstrument false raw] in
  let m := original_notes (load_midi_file init_fields d) in
  melodic_notes [mkInstrument false raw] = raw /\
  length raw = 2%nat /\
  length m = 32%nat /\
  length m <> length raw /\
  existsb (fun n => (note n =? 61) || (velocity n =? 90)) m = false.
Proof.
  split; [reflexivity|]. cbv zeta.
  split; [reflexivity|]. split; [reflexivity|]. split; [reflexivity|].
  split; [simpl; discriminate | reflexivity].
Qed.

(** X28.  When loading does not raise (the file decodes and has a single
    tempo entry), the melody that [load_midi_file] builds from the raw
    notes (those of the instruments that are not drums) has as many
    notes as the raw list, is sorted ascending by start time, and is a
    stable rearrangement of the annotated raw notes: for every instant,
    the notes starting at it appear in their original relative order. *)
Theorem load_sorted_stable_same_count
  (s : DogMidiSystem) (tempi : list Q) (instruments : list Instrument) :
  original_notes s = [] ->
  load_raises (PrettyMIDI tempi instruments) = false ->
  let s' := load_midi_file s (PrettyMIDI tempi instruments) in
  let raw := melodic_notes instruments in
  let annotated :=
    map (note_event_of (tempo s') (fst (time_signature s))) raw in
  length (original_notes s') = length raw /\
  StronglySorted starts_before (original_notes s') /\
  Permutation annotated (original_notes s') /\
  (forall t, starting_at t (original_notes s') = starting_at t annotated) /\
  map start_time annotated = map raw_start raw.
Proof.
  intros Hempty Hok. unfold load_raises in Hok.
  unfold load_midi_file.
  destruct (array_truth tempi) as [b|]; [|discriminate].
  assert (Hsig : forall s1 : DogMidiSystem,
             s1 = (if b then set_tempo s (hd 0%Q tempi) else s) ->
             original_notes s1 = [] /\ time_signature s1 = time_signature s).
  { intros s1 ->. destruct b; simpl; auto. }
  destruct (Hsig _ eq_refl) as [Hn Hts].
  cbv zeta. simpl original_notes. simpl tempo.
  rewrite Hn, Hts. simpl app.
  split; [rewrite sort_by_start_time_length; apply length_map|].
  split; [apply sort_by_start_time_sorted|].
  split; [apply sort_by_start_time_perm|].
  split; [intros t; apply sort_by_start_time_stable|].
  rewrite map_map. reflexivity.
Qed.

Lemma load_sorted_stable_same_count_witness :
  let raw := [mkRawNote 64 90 (3 # 2) 2; mkRawNote 60 80 0 1;
              mkRawNote 67 70 (3 # 2) 3] in
  let s' := load_midi_file init_fields
              (PrettyMIDI [90%Q] [mkInstrument false raw;
                                  mkInstrument true [mkRawNote 36 99 0 1]]) in
  length (original_notes s') = 3%nat /\
  StronglySorted starts_before (original_notes s') /\
  map note (original_notes s') = [60; 64; 67].
Proof.
  cbv zeta.
  pose proof (load_sorted_stable_same_count init_fields [90%Q]
                [mkInstrument false
                   [mkRawNote 64 90 (3 # 2) 2; mkRawNote 60 80 0 1;
                    mkRawNote 67 70 (3 # 2) 3];
                 mkInstrument true [mkRawNote 36 99 0 1]]
                eq_refl eq_refl) as H.
  cbv zeta in H. destruct H as (H1 & H2 & _).
  split; [exact H1 | split; [exact H2 | reflexivity]].
Defined.

(* ------------------------------------------------------------------ *)
(** ** Sequential advance: [process_input_note] *)

Section Sequential.

Lemma set_melody_index_cursor (s : DogMidiSystem) :
  melody_index s <> None -> set_melody_index s (Some (cursor s)) = s.
Proof.
  destruct s as [a b c d e f g h i j k l [m|]]; simpl; intros H;
    [reflexivity | contradiction].
Qed.

(** The step on a melody with a note under the cursor. *)
Lemma next_in_melody_picks (s : DogMidiSystem) :
  (cursor s < length (original_notes s))%nat ->
  exists ne,
    nth_error (original_notes s) (cursor s) = Some ne /\
    next_in_melody s =
      (set_melody_index s
         (Some ((cursor s + 1) mod length (original_notes s))%nat),
       Picked ne).
Proof.
  intros Hc.
  destruct (nth_error (original_notes s) (cursor s)) as [ne|] eqn:E.
  2:{ apply nth_error_None in E. lia. }
  exists ne. split; [reflexivity|].
  unfold next_in_melody.
  destruct (melody_index s) as [i|] eqn:Em.
  - destruct (original_notes s) as [|n l] eqn:En; [simpl in Hc; lia|].
    rewrite E. reflexivity.
  - assert (Hz : cursor s = O) by (unfold cursor; now rewrite Em).
    rewrite Hz in *. cbn [original_notes set_melody_index cursor melody_index].
    destruct (original_notes s) as [|n l] eqn:En; [simpl in Hc; lia|].
    rewrite E. reflexivity.
Qed.

(** The step on an empty melody. *)
Lemma next_in_melody_empty (s : DogMidiSystem) :
  original_notes s = [] ->
  next_in_melody s = (set_melody_index s (Some (cursor s)), NoMelody).
Proof.
  intros He. unfold next_in_melody, cursor.
  destruct (melody_index s) as [i|] eqn:Em.
  - rewrite He. f_equal.
    symmetry. pose proof (set_melody_index_cursor s) as H.
    unfold cursor in H. rewrite Em in H. apply H. discriminate.
  - simpl. rewrite He. reflexivity.
Qed.

Lemma process_input_note_sys (s : DogMidiSystem) (p v : Z) (r : Random) :
  sys (process_input_note s p v r) = fst (next_in_melody s).
Proof.
  unfold process_input_note.
  destruct (next_in_melody s) as [s1 [|ne|]]; try reflexivity.
  destruct (apply_randomness s1 (note ne) (velocity ne) r) as [[cn cv] r1].
  reflexivity.
Qed.

(** After [k] triggers the melody is the same and the cursor has moved
    [k] places round the melody. *)
Lemma feed_cursor (triggers : list (Z * Z)) :
  forall (s : DogMidiSystem) (r : Random),
    (cursor s < length (original_notes s))%nat ->
    original_notes (fst (feed s r triggers)) = original_notes s /\
    cursor (fst (feed s r triggers)) =
      ((cursor s + length triggers) mod length (original_notes s))%nat.
Proof.
  induction triggers as [|[p v] rest IH]; intros s r Hc.
  - simpl. split; [reflexivity|].
    rewrite Nat.add_0_r. symmetry. now apply Nat.mod_small.
  - simpl feed.
    destruct (next_in_melody_picks s Hc) as (ne & _ & Hstep).
    pose proof (process_input_note_sys s p v r) as Hsys.
    rewrite Hstep in Hsys. simpl fst in Hsys.
    set (N := length (original_notes s)) in *.
    assert (HN : N <> O) by lia.
    assert (Hc' : (cursor (sys (process_input_note s p v r))
                   < length (original_notes
                               (sys (process_input_note s p v r))))%nat).
    { rewrite Hsys. simpl. fold N. now apply Nat.mod_upper_bound. }
    destruct (IH (sys (process_input_note s p v r))
                 (rnd (process_input_note s p v r)) Hc') as [H1 H2].
    rewrite H1, H2. rewrite Hsys. simpl original_notes. simpl cursor.
    fold N. split; [reflexivity|].
    simpl length.
    change (cursor (set_melody_index s (Some ((cursor s + 1) mod N)%nat)))
      with ((cursor s + 1) mod N)%nat.
    rewrite Nat.Div0.add_mod_idemp_l. f_equal. lia.
Qed.

End Sequential.

(** C8, counterexample.  On a fresh session with no melody the call
    returns normally (the message is only printed), and it creates the
    cursor attribute: it neither reports an error nor leaves the object
    as it was. *)
Lemma empty_melody_not_reported :
  let res := process_input_note init_fields 60 100 sample_random in
  original_notes init_fields = [] /\
  ended res = Py.Returned /\
  melody_index init_fields = None /\
  melody_index (sys res) = Some O /\
  ~ ((exists e, ended res = Py.Raised e) /\ sys res = init_fields).
Proof.
  cbv zeta. repeat split; try reflexivity.
  intros [[e He] _]. vm_compute in He. discriminate.
Qed.

(** C8, amended.  Invoked on a melody of zero notes, the call returns
    normally after printing its message: no error reaches the caller, no
    note is emitted, no timer is started, the random source is not
    consumed, and the object is unchanged except that a missing cursor
    is created at 0 (an existing cursor keeps its value). *)
Theorem empty_melody_is_silent
  (s : DogMidiSystem) (p v : Z) (r : Random) :
  original_notes s = [] ->
  let res := process_input_note s p v r in
  ended res = Py.Returned /\
  effects res = [Console "No original melody loaded."%string] /\
  emitted (effects res) = [] /\
  rnd res = r /\
  sys res = set_melody_index s (Some (cursor s)) /\
  cursor (sys res) = cursor s /\
  original_notes (sys res) = [] /\
  (melody_index s <> None -> sys res = s).
Proof.
  intros He res. subst res. unfold process_input_note.
  rewrite (next_in_melody_empty s He). simpl.
  repeat split; try reflexivity; try assumption.
  apply set_melody_index_cursor.
Qed.

Lemma empty_melody_is_silent_witness :
  let res := process_input_note init_fields 60 100 sample_random in
  ended res = Py.Returned /\ emitted (effects res) = [] /\
  rnd res = sample_random.
Proof.
  pose proof (empty_melody_is_silent init_fields 60 100 sample_random
                eq_refl) as H.
  cbv zeta in H. destruct H as (H1 & _ & H3 & H4 & _).
  cbv zeta. split; [exact H1 | split; [exact H3 | exact H4]].
Defined.

(** C10.  [process_input_note] does not read its arguments: two triggers
    processed from the same object and random source give the same
    result in full (object, random source, trace, ending).  The note-on
    it sends is the note under the cursor passed through
    [apply_randomness]; without an output handle, or without a note
    under the cursor, nothing is sent. *)
Theorem output_independent_of_trigger
  (s : DogMidiSystem) (r : Random) (p1 v1 p2 v2 : Z) :
  process_input_note s p1 v1 r = process_input_note s p2 v2 r /\
  emitted (effects (process_input_note s p1 v1 r)) =
    match midi_output s, nth_error (original_notes s) (cursor s) with
    | Some _, Some ne =>
        [fst (apply_randomness s (note ne) (velocity ne) r)]
    | _, _ => []
    end.
Proof.
  split; [reflexivity|].
  destruct (original_notes s) as [|n0 l0] eqn:En.
  - unfold process_input_note. rewrite (next_in_melody_empty s En).
    simpl. destruct (midi_output s); [|reflexivity].
    now destruct (cursor s).
  - rewrite <- En.
    destruct (Nat.lt_ge_cases (cursor s) (length (original_notes s)))
      as [Hlt|Hge].
    + destruct (next_in_melody_picks s Hlt) as (ne & Hnth & Hstep).
      unfold process_input_note. rewrite Hstep, Hnth.
      change (apply_randomness
                (set_melody_index s
                   (Some ((cursor s + 1) mod length (original_notes s))%nat)))
        with (apply_randomness s).
      destruct (apply_randomness s (note ne) (velocity ne) r)
        as [[cn cv] r1].
      simpl midi_output. destruct (midi_output s); reflexivity.
    + assert (Hnone : nth_error (original_notes s) (cursor s) = None)
        by now apply nth_error_None.
      rewrite Hnone.
      assert (Hbad : snd (next_in_melody s) = BadIndex).
      { unfold next_in_melody.
        destruct (melody_index s) as [i|] eqn:Em.
        - rewrite En. rewrite <- En. rewrite Hnone. reflexivity.
        - exfalso. unfold cursor in Hge. rewrite Em, En in Hge.
          simpl in Hge. lia. }
      unfold process_input_note.
      destruct (next_in_melody s) as [s1 sel]. simpl in Hbad. subst sel.
      simpl. now destruct (midi_output s).
Qed.

(** The listener forwards a note-on message with a positive velocity to
    [process_input_note], so what it sends does not depend on the pitch
    and velocity of the message either. *)
Lemma listener_independent_of_trigger
  (s : DogMidiSystem) (r : Random) (st1 p1 v1 st2 p2 v2 : Z) :
  144 <= st1 <= 159 -> v1 > 0 -> 144 <= st2 <= 159 -> v2 > 0 ->
  process_events s r [(st1, p1, v1)] = process_events s r [(st2, p2, v2)].
Proof.
  intros H1 Hv1 H2 Hv2. simpl.
  assert (E1 : (144 <=? st1) && (st1 <=? 159) && (v1 >? 0) = true).
  { rewrite !andb_true_iff, !Z.leb_le, Z.gtb_ltb, Z.ltb_lt. lia. }
  assert (E2 : (144 <=? st2) && (st2 <=? 159) && (v2 >? 0) = true).
  { rewrite !andb_true_iff, !Z.leb_le, Z.gtb_ltb, Z.ltb_lt. lia. }
  rewrite E1, E2. reflexivity.
Qed.

(* ------------------------------------------------------------------ *)
(** ** Randomness *)

Section Randomness.

Lemma random_range (r : Random) : (0 <= fst (random r) < 1)%Q.
Proof.
  unfold random, draw. cbn [fst].
  set (w := tape r (pos r)).
  assert (Hlt : (w mod 2 ^ 53 < 2 ^ 53)%N)
    by (apply N.mod_upper_bound; discriminate).
  apply N2Z.inj_lt in Hlt.
  change (Z.of_N (2 ^ 53)) with (Z.pos (2 ^ 53)) in Hlt.
  pose proof (N2Z.is_nonneg (w mod 2 ^ 53)) as Hge.
  revert Hlt Hge.
  generalize (Z.of_N (w mod 2 ^ 53)) (2 ^ 53)%positive.
  intros m d Hlt Hge.
  split.
  - unfold Qle. cbn [Qnum Qden]. lia.
  - unfold Qlt. cbn [Qnum Qden]. lia.
Qed.

Lemma randint_range (a b : Z) (r : Random) :
  a <= b -> a <= fst (randint a b r) <= b.
Proof.
  intros Hab. unfold randint, draw. cbn [fst].
  pose proof (Z.mod_pos_bound (Z.of_N (tape r (pos r))) (b - a + 1)).
  lia.
Qed.

(** A zero factor is never above the draw. *)
Lemma never_below_zero (f : Q) (r : Random) :
  (f == 0)%Q -> Py.flt (fst (random r)) f = false.
Proof.
  intros Hf. unfold Py.flt.
  destruct (random_range r) as [H0 _].
  assert (H : (f <= fst (random r))%Q) by (rewrite Hf; exact H0).
  apply Qle_bool_iff in H. now rewrite H.
Qed.

(** A factor of one is always above the draw. *)
Lemma always_below_one (f : Q) (r : Random) :
  (f == 1)%Q -> Py.flt (fst (random r)) f = true.
Proof.
  intros Hf. unfold Py.flt.
  destruct (random_range r) as [_ H1].
  destruct (Qle_bool f (fst (random r))) eqn:E; [|reflexivity].
  apply Qle_bool_iff in E. rewrite Hf in E.
  exfalso. exact (Qlt_not_le _ _ H1 E).
Qed.

Lemma clamp_pitch (n d : Z) :
  0 <= n <= 127 -> -2 <= d <= 2 ->
  0 <= Z.max 0 (Z.min 127 (n + d)) <= 127 /\
  Z.abs (Z.max 0 (Z.min 127 (n + d)) - n) <= 2.
Proof. lia. Qed.

Lemma clamp_velocity (v d : Z) :
  1 <= v <= 127 -> -10 <= d <= 10 ->
  1 <= Z.max 1 (Z.min 127 (v + d)) <= 127 /\
  Z.abs (Z.max 1 (Z.min 127 (v + d)) - v) <= 10.
Proof. lia. Qed.

End Randomness.

(** C5.  For a pitch in [0,127] and a velocity in [1,127], whatever the
    random source: with a factor of 0 the pair comes back unchanged (only
    the draw of the test is consumed); with a
    factor of 1 the jitter is always applied, the pitch being clamped to
    [0,127] and the velocity to [1,127]; and for every factor the pitch
    returned lies in [0,127] within 2 of the input and the velocity in
    [1,127] within 10 of the input.  The function has a result in every
    case: nothing is raised. *)
Theorem apply_randomness_bounded
  (s : DogMidiSystem) (n v : Z) (r : Random) :
  0 <= n <= 127 ->
  1 <= v <= 127 ->
  ((randomness_factor s == 0)%Q ->
     apply_randomness s n v r = ((n, v), snd (random r))) /\
  ((randomness_factor s == 1)%Q ->
     exists d1 d2,
       -2 <= d1 <= 2 /\ -10 <= d2 <= 10 /\
       fst (apply_randomness s n v r) =
         (Z.max 0 (Z.min 127 (n + d1)), Z.max 1 (Z.min 127 (v + d2)))) /\
  (let (n', v') := fst (apply_randomness s n v r) in
   0 <= n' <= 127 /\ Z.abs (n' - n) <= 2 /\
   1 <= v' <= 127 /\ Z.abs (v' - v) <= 10).
Proof.
  intros Hn Hv.
  assert (Hshape :
    forall b, Py.flt (fst (random r)) (randomness_factor s) = b ->
      if b then
        exists d1 d2,
          -2 <= d1 <= 2 /\ -10 <= d2 <= 10 /\
          fst (apply_randomness s n v r) =
            (Z.max 0 (Z.min 127 (n + d1)), Z.max 1 (Z.min 127 (v + d2)))
      else apply_randomness s n v r = ((n, v), snd (random r))).
  { intros b Hb. unfold apply_randomness.
    destruct (random r) as [u r1] eqn:Er. cbn [fst] in Hb. rewrite Hb.
    destruct b; [|reflexivity].
    pose proof (randint_range (-2) 2 r1 ltac:(lia)) as Hd1.
    destruct (randint (-2) 2 r1) as [d1 r2] eqn:E1. cbn [fst] in Hd1.
    pose proof (randint_range (-10) 10 r2 ltac:(lia)) as Hd2.
    destruct (randint (-10) 10 r2) as [d2 r3] eqn:E2. cbn [fst] in Hd2.
    exists d1, d2. repeat split; lia. }
  split; [|split].
  - intros Hf. exact (Hshape false (never_below_zero _ r Hf)).
  - intros Hf. exact (Hshape true (always_below_one _ r Hf)).
  - specialize (Hshape _ eq_refl).
    destruct (Py.flt (fst (random r)) (randomness_factor s)).
    + destruct Hshape as (d1 & d2 & Hd1 & Hd2 & ->).
      destruct (clamp_pitch n d1 Hn Hd1), (clamp_velocity v d2 Hv Hd2).
      repeat split; lia.
    + rewrite Hshape. cbn [fst]. repeat split; lia.
Qed.

Lemma apply_randomness_bounded_witness :
  apply_randomness (with_randomness sample_session 0) 126 5 sample_random
  = ((126, 5), snd (random sample_random)) /\
  (let (n', v') :=
     fst (apply_randomness (with_randomness sample_session 1) 126 5
                           sample_random) in
   0 <= n' <= 127 /\ Z.abs (n' - 126) <= 2 /\
   1 <= v' <= 127 /\ Z.abs (v' - 5) <= 10).
Proof.
  split.
  - apply (apply_randomness_bounded (with_randomness sample_session 0)
             126 5 sample_random); [lia | lia | reflexivity].
  - apply (apply_randomness_bounded (with_randomness sample_session 1)
             126 5 sample_random); lia.
Defined.

(* ------------------------------------------------------------------ *)
(** ** Rounding to double *)

Section Rounding.

Lemma fl_comp (x y : Q) : (x == y)%Q -> Py.fl x = Py.fl y.
Proof. intros H. unfold Py.fl. now rewrite (Qred_complete x y H). Qed.

Lemma round_half_even_floor (q : Q) : Qfloor q <= Py.round_half_even q.
Proof.
  unfold Py.round_half_even.
  destruct (Qcompare _ _); try destruct (Z.even _); lia.
Qed.

(** The binade of a positive number starts below it. *)
Lemma binade_below (x : Q) : (0 < x)%Q -> (Qpower 2 (Py.binade x) <= x)%Q.
Proof.
  intros Hx. unfold Py.binade.
  destruct (Qle_bool 1 x) eqn:E.
  - apply Qle_bool_iff in E.
    assert (H1 : 1 <= Qfloor x).
    { rewrite <- (Qfloor_Z 1). now apply Qfloor_resp_le. }
    destruct (Z.log2_spec (Qfloor x) ltac:(lia)) as [Hlo _].
    rewrite <- (Zpower_Qpower 2 _ (Z.log2_nonneg _)).
    eapply Qle_trans; [|apply Qfloor_le].
    now rewrite <- Zle_Qle.
  - assert (Hlt : (x < 1)%Q).
    { destruct (Qlt_le_dec x 1) as [H|H]; [exact H|].
      apply Qle_bool_iff in H. congruence. }
    set (a := Qceiling (/ x)).
    assert (Ha : (/ x <= inject_Z a)%Q) by apply Qle_ceiling.
    pose proof (Z.log2_log2_up_spec a) as Hspec.
    assert (Hinv : (1 < / x)%Q).
    { apply Qlt_shift_inv_l; [exact Hx | lra]. }
    assert (Ha1 : 0 < a).
    { assert (H : (inject_Z 0 < inject_Z a)%Q)
        by (change (inject_Z 0) with 0%Q; lra).
      now rewrite <- Zlt_Qlt in H. }
    destruct (Hspec Ha1) as [_ Hup].
    rewrite Qpower_opp.
    rewrite <- (Zpower_Qpower 2 _ (Z.log2_up_nonneg _)).
    assert (HP : (inject_Z a <= inject_Z (2 ^ Z.log2_up a))%Q)
      by now rewrite <- Zle_Qle.
    set (P := inject_Z (2 ^ Z.log2_up a)) in *.
    assert (HP0 : (0 < P)%Q) by lra.
    apply Qle_shift_inv_r; [exact HP0|].
    assert (Hxi : (x * / x == 1)%Q) by (apply Qmult_inv_r; lra).
    assert (H : (x * / x <= x * P)%Q).
    { rewrite !(Qmult_comm x). apply Qmult_le_compat_r; lra. }
    rewrite Hxi in H. lra.
Qed.

Lemma fl_pos_positive (x : Q) : (0 < x)%Q -> (0 < Py.fl_pos x)%Q.
Proof.
  intros Hx. unfold Py.fl_pos.
  set (ulp := Qpower 2 (Py.binade x - 52)).
  assert (Hulp : (0 < ulp)%Q) by (apply Qpower_0_lt; reflexivity).
  assert (Hle : (ulp <= x)%Q).
  { eapply Qle_trans; [|apply binade_below; exact Hx].
    apply Qpower_le_compat_l; [lia | discriminate]. }
  assert (Hq : (1 <= x / ulp)%Q).
  { apply Qle_shift_div_l; [exact Hulp | lra]. }
  assert (Hm : 1 <= Py.round_half_even (x / ulp)).
  { eapply Z.le_trans; [|apply round_half_even_floor].
    rewrite <- (Qfloor_Z 1). now apply Qfloor_resp_le. }
  assert (HmQ : (1 <= inject_Z (Py.round_half_even (x / ulp)))%Q).
  { change 1%Q with (inject_Z 1). now rewrite <- Zle_Qle. }
  apply Qmult_lt_0_compat; lra.
Qed.

(** Rounding keeps the sign: nothing but zero rounds to zero. *)
Lemma fl_sign (x : Q) :
  ((0 < x)%Q -> (0 < Py.fl x)%Q) /\
  ((x < 0)%Q -> (Py.fl x < 0)%Q) /\
  ((x == 0)%Q -> Py.fl x = 0%Q).
Proof.
  pose proof (Qred_correct x) as Hy.
  unfold Py.fl. set (y := Qred x) in *.
  assert (Hsign : forall q : Q, ((0 < q)%Q <-> 0 < Qnum q) /\
                                ((q < 0)%Q <-> Qnum q < 0) /\
                                ((q == 0)%Q <-> Qnum q = 0)).
  { intros q. unfold Qlt, Qeq. simpl. repeat split; intros; lia. }
  destruct (Hsign y) as (Hp & Hn & Hz).
  destruct (Z.compare_spec (Qnum y) 0) as [E | E | E].
  - apply Hz in E. repeat split; intros; try reflexivity; lra.
  - apply Hn in E. repeat split; intros; try lra.
    rewrite Qred_correct.
    assert (H' : (0 < Py.fl_pos (- y))%Q) by (apply fl_pos_positive; lra).
    lra.
  - apply Hp in E. repeat split; intros; try lra.
    rewrite Qred_correct. now apply fl_pos_positive.
Qed.

Lemma fl_nonneg (x : Q) : (0 <= x)%Q -> (0 <= Py.fl x)%Q.
Proof.
  intros H. destruct (fl_sign x) as (Hp & _ & Hz).
  destruct (Qlt_le_dec 0 x) as [Hlt | Hle].
  - apply Qlt_le_weak. now apply Hp.
  - rewrite Hz; [apply Qle_refl | now apply Qle_antisym].
Qed.

Lemma fl_zero_inv (x : Q) : (Py.fl x == 0)%Q -> (x == 0)%Q.
Proof.
  intros H. destruct (fl_sign x) as (Hp & Hn & _).
  destruct (Qlt_le_dec 0 x) as [Hlt | Hle].
  - specialize (Hp Hlt). lra.
  - destruct (Qlt_le_dec x 0) as [Hlt' | Hge]; [|now apply Qle_antisym].
    specialize (Hn Hlt'). lra.
Qed.

(** The tolerance in beats has the sign of the exact product. *)
Lemma tolerance_sign (s : DogMidiSystem) :
  ((0 <= timing_tolerance s * tempo s / 60)%Q ->
   (0 <= tolerance_in_beats s)%Q) /\
  ((timing_tolerance s * tempo s / 60 < 0)%Q ->
   (tolerance_in_beats s < 0)%Q).
Proof.
  unfold tolerance_in_beats, Py.fdiv, Py.fmul.
  set (p := (timing_tolerance s * tempo s)%Q).
  split; intros H.
  - assert (Hp : (0 <= p)%Q).
    { destruct (Qlt_le_dec p 0) as [Hlt|Hge]; [|exact Hge].
      exfalso. assert (H' : (p / 60 < 0)%Q)
        by (apply Qlt_shift_div_r; [reflexivity | lra]).
      lra. }
    apply fl_nonneg. apply Qle_shift_div_l; [reflexivity|].
    pose proof (fl_nonneg p Hp). lra.
  - assert (Hp : (p < 0)%Q).
    { destruct (Qlt_le_dec p 0) as [Hlt|Hge]; [exact Hlt|].
      exfalso. assert (H' : (0 <= p / 60)%Q)
        by (apply Qle_shift_div_l; [reflexivity | lra]).
      lra. }
    destruct (fl_sign p) as (_ & Hn & _). specialize (Hn Hp).
    destruct (fl_sign (Py.fl p / 60)) as (_ & Hn' & _). apply Hn'.
    apply Qlt_shift_div_r; [reflexivity | lra].
Qed.

End Rounding.

(* ------------------------------------------------------------------ *)
(** ** Nearest match *)

Section NearestMatch.

Variable s : DogMidiSystem.
Variable input_note : Z.
Variable current_beat : Q.

Let sc := score input_note current_beat.
Let acc := accepted s input_note current_beat.
Let step := closest_step s input_note current_beat.

Lemma flt_true_iff (a b : Q) : Py.flt a b = true <-> (a < b)%Q.
Proof.
  unfold Py.flt. rewrite negb_true_iff. split.
  - intros H. destruct (Qlt_le_dec a b) as [Hlt|Hle]; [exact Hlt|].
    apply Qle_bool_iff in Hle. congruence.
  - intros H. destruct (Qle_bool b a) eqn:E; [|reflexivity].
    apply Qle_bool_iff in E. exfalso. exact (Qlt_not_le _ _ H E).
Qed.

Lemma flt_false_iff (a b : Q) : Py.flt a b = false <-> (b <= a)%Q.
Proof.
  unfold Py.flt. rewrite negb_false_iff. apply Qle_bool_iff.
Qed.

Lemma accepted_iff (n : NoteEvent) :
  accepted s input_note current_beat n = true <->
  pitch_diff input_note n <= pitch_correction_range s /\
  (beat_diff current_beat n <= tolerance_in_beats s)%Q.
Proof.
  unfold accepted, Py.fgt.
  rewrite andb_true_iff, !negb_true_iff, negb_false_iff, Qle_bool_iff.
  rewrite Z.gtb_ltb, Z.ltb_ge. reflexivity.
Qed.

Lemma score_nonneg (n : NoteEvent) : (0 <= sc n)%Q.
Proof.
  unfold sc, score, Py.fadd, Py.fmul.
  assert (H1 : (0 <= inject_Z (pitch_diff input_note n))%Q).
  { unfold pitch_diff. change 0%Q with (inject_Z 0). rewrite <- Zle_Qle.
    apply Z.abs_nonneg. }
  assert (H2 : (0 <= beat_diff current_beat n)%Q) by apply Qabs_nonneg.
  apply fl_nonneg.
  apply (Qplus_le_compat 0 _ 0 _); apply fl_nonneg;
    apply Qmult_le_0_compat; try assumption; discriminate.
Qed.

Lemma beat_diff_exact_match (n : NoteEvent) :
  (beat n == current_beat)%Q -> beat_diff current_beat n = 0%Q.
Proof.
  intros Hb. unfold beat_diff, Py.fabs, Py.fsub.
  assert (E : (beat n - current_beat == 0)%Q) by (rewrite Hb; ring).
  rewrite (fl_comp _ _ E). reflexivity.
Qed.

Lemma score_exact_match (n : NoteEvent) :
  note n = input_note -> (beat n == current_beat)%Q -> (sc n == 0)%Q.
Proof.
  intros Hp Hb. unfold sc, score, pitch_diff.
  rewrite (beat_diff_exact_match n Hb), Hp, Z.sub_diag.
  vm_compute. reflexivity.
Qed.

Lemma candidate_loop (cb : Z) (l acc0 : list NoteEvent) :
  fold_left (fun a n => if near_bar cb n then a ++ [n] else a) l acc0
  = acc0 ++ filter (near_bar cb) l.
Proof.
  revert acc0; induction l as [|x l IH]; intros acc0; simpl.
  - now rewrite app_nil_r.
  - rewrite IH. destruct (near_bar cb x); [|reflexivity].
    now rewrite <- app_assoc.
Qed.

Lemma closest_step_rejected (st : option NoteEvent * option Q)
  (n : NoteEvent) :
  acc n = false -> step st n = st.
Proof.
  unfold acc, accepted, step, closest_step. intros H.
  destruct (pitch_diff input_note n >? pitch_correction_range s);
    [reflexivity|].
  simpl in H. apply negb_false_iff in H. now rewrite H.
Qed.

Lemma closest_step_accepted (st : option NoteEvent * option Q)
  (n : NoteEvent) :
  acc n = true ->
  step st n = if below (sc n) (snd st) then (Some n, Some (sc n)) else st.
Proof.
  unfold acc, accepted, step, closest_step. intros H.
  apply andb_true_iff in H as [H1 H2].
  apply negb_true_iff in H1, H2. rewrite H1, H2. reflexivity.
Qed.

Lemma best_so_far_loop (l : list NoteEvent) :
  best_so_far s input_note current_beat l (fold_left step l (None, None)).
Proof.
  induction l as [|x l IH] using rev_ind; [reflexivity|].
  rewrite fold_left_app. simpl fold_left.
  set (st := fold_left step l (None, None)) in *.
  unfold best_so_far in IH |- *. cbv zeta in IH |- *.
  fold acc sc in IH |- *.
  rewrite filter_app. simpl filter.
  destruct (acc x) eqn:Ex.
  2:{ rewrite (closest_step_rejected st x Ex), app_nil_r. exact IH. }
  rewrite (closest_step_accepted st x Ex).
  destruct st as [[b|] [q|]]; simpl in IH; try contradiction.
  - destruct IH as (-> & i & Hi & Hmin & Hfirst). simpl snd. simpl below.
    assert (Hlen : (i < length (filter acc l))%nat)
      by (apply nth_error_Some; congruence).
    destruct (Py.flt (sc x) (sc b)) eqn:E.
    + apply flt_true_iff in E.
      split; [reflexivity|].
      exists (length (filter acc l)).
      split; [rewrite nth_error_app2, Nat.sub_diag by lia; reflexivity|].
      split.
      * intros j m Hj.
        destruct (Nat.lt_ge_cases j (length (filter acc l))) as [Hlt|Hge].
        -- rewrite nth_error_app1 in Hj by exact Hlt.
           apply Qlt_le_weak. eapply Qlt_le_trans; [exact E|].
           eapply Hmin; exact Hj.
        -- rewrite nth_error_app2 in Hj by exact Hge.
           destruct (j - length (filter acc l))%nat as [|k];
             [|destruct k; discriminate].
           injection Hj as <-. apply Qle_refl.
      * intros j m Hlt Hj. rewrite nth_error_app1 in Hj by exact Hlt.
        eapply Qlt_le_trans; [exact E|]. eapply Hmin; exact Hj.
    + apply flt_false_iff in E.
      split; [reflexivity|]. exists i.
      split; [rewrite nth_error_app1 by exact Hlen; exact Hi|].
      split.
      * intros j m Hj.
        destruct (Nat.lt_ge_cases j (length (filter acc l))) as [Hlt|Hge].
        -- rewrite nth_error_app1 in Hj by exact Hlt.
           eapply Hmin; exact Hj.
        -- rewrite nth_error_app2 in Hj by exact Hge.
           destruct (j - length (filter acc l))%nat as [|k];
             [|destruct k; discriminate].
           injection Hj as <-. exact E.
      * intros j m Hlt Hj.
        rewrite nth_error_app1 in Hj by lia.
        eapply Hfirst; eassumption.
  - simpl snd. simpl below. split; [reflexivity|].
    rewrite IH. exists O. simpl.
    split; [reflexivity|]. split.
    + intros [|[|j]] m Hj; simpl in Hj; try discriminate.
      injection Hj as <-. apply Qle_refl.
    + intros j m Hlt. lia.
Qed.

End NearestMatch.

(** C4, counterexample.  The note returned is the one of least score as
    the code computes it in doubles, not of least [0.7 * pitchDiff + 0.3
    * beatDiff].  In [rounded_tie_session] two notes of pitch 72 sit at
    beats 0.5000000000000001 and 0.5: for input pitch 60 at beat 0 the
    later one has the smaller exact score, both computed scores are
    8.549999999999999, and the earlier one is returned.  In
    [weight_tie_session] the notes (pitch 60, beat 7) and (pitch 63,
    beat 0) have the same exact score 2.1, so the earlier one should
    win the tie; the code computes 2.1 and 2.0999999999999996 and
    returns the later one. *)
Lemma least_computed_score_not_least_exact_score :
  (exists n1 n2,
     survivors rounded_tie_session 60 0 0 = [n1; n2] /\
     (exact_score 60 0 n2 < exact_score 60 0 n1)%Q /\
     (score 60 0 n1 == score 60 0 n2)%Q /\
     find_closest_note rounded_tie_session 60 0 0 = Some n1) /\
  (exists n1 n2,
     survivors weight_tie_session 60 0 0 = [n1; n2] /\
     (exact_score 60 0 n1 == exact_score 60 0 n2)%Q /\
     (score 60 0 n2 < score 60 0 n1)%Q /\
     find_closest_note weight_tie_session 60 0 0 = Some n2).
Proof.
  split.
  - eexists. eexists. split; [vm_compute; reflexivity|].
    repeat split; vm_compute; reflexivity.
  - eexists. eexists. split; [vm_compute; reflexivity|].
    repeat split; vm_compute; reflexivity.
Qed.

(** C4, amended.  [find_closest_note] considers exactly the notes whose
    bar is within one of the current bar; it rejects a candidate whose
    pitch distance exceeds [pitch_correction_range] or whose beat
    distance, computed in doubles, exceeds [timing_tolerance * tempo /
    60], computed in doubles; it returns [None] exactly when no
    candidate survives, and otherwise the survivor of least score, the
    score being [pitchDiff * 0.7 + beatDiff * 0.3] as computed in
    doubles (each product and the sum rounded), and the earliest one in
    melody order among those of equal computed score.  A note of the
    input pitch at the current beat scores 0, scores are never negative,
    and when a survivor scores 0 the note returned scores 0.  The call
    itself changes nothing in the object and sends nothing, whether a
    note is returned or not. *)
Theorem find_closest_note_spec
  (s : DogMidiSystem) (input_note current_bar : Z) (current_beat : Q) :
  let sc := score input_note current_beat in
  let surv := survivors s input_note current_bar current_beat in
  candidate_notes s current_bar =
    filter (fun n => Z.abs (bar n - current_bar) <=? 1) (original_notes s) /\
  (forall n, In n surv <->
     In n (original_notes s) /\
     Z.abs (bar n - current_bar) <= 1 /\
     Z.abs (note n - input_note) <= pitch_correction_range s /\
     (Qabs (Py.fl (beat n - current_beat))
      <= Py.fl (Py.fl (timing_tolerance s * tempo s) / 60))%Q) /\
  (forall n,
     sc n = Py.fl (Py.fl (inject_Z (Z.abs (note n - input_note))
                          * weight_pitch)
                   + Py.fl (Qabs (Py.fl (beat n - current_beat))
                            * weight_beat))) /\
  match find_closest_note s input_note current_bar current_beat with
  | None => surv = []
  | Some best =>
      exists i,
        nth_error surv i = Some best /\
        (forall j m, nth_error surv j = Some m -> (sc best <= sc m)%Q) /\
        (forall j m, (j < i)%nat -> nth_error surv j = Some m ->
                     (sc best < sc m)%Q)
  end /\
  (forall n, note n = input_note -> (beat n == current_beat)%Q ->
             (sc n == 0)%Q) /\
  (forall n, (0 <= sc n)%Q) /\
  (forall best z,
     find_closest_note s input_note current_bar current_beat = Some best ->
     In z surv -> (sc z == 0)%Q -> (sc best == 0)%Q) /\
  find_closest_note_call s input_note current_bar current_beat =
    (find_closest_note s input_note current_bar current_beat, s, []) /\
  emitted (snd (find_closest_note_call s input_note current_bar
                                       current_beat)) = [].
Proof.
  intros sc surv.
  assert (Hcand : candidate_notes s current_bar =
                  filter (near_bar current_bar) (original_notes s)).
  { unfold candidate_notes. now rewrite candidate_loop. }
  assert (Hfind :
    match find_closest_note s input_note current_bar current_beat with
    | None => surv = []
    | Some best =>
        exists i,
          nth_error surv i = Some best /\
          (forall j m, nth_error surv j = Some m -> (sc best <= sc m)%Q) /\
          (forall j m, (j < i)%nat -> nth_error surv j = Some m ->
                       (sc best < sc m)%Q)
    end).
  { pose proof (best_so_far_loop s input_note current_beat
                  (candidate_notes s current_bar)) as H.
    unfold find_closest_note. subst surv. unfold survivors.
    destruct (candidate_notes s current_bar) as [|c cs] eqn:Ec;
      [reflexivity|].
    unfold best_so_far in H. cbv zeta in H. fold sc in H.
    destruct (fold_left _ (c :: cs) (None, None)) as [[b|] [q|]];
      simpl fst; try contradiction.
    - destruct H as (_ & H). exact H.
    - exact H. }
  split; [exact Hcand|].
  split.
  { intros n. subst surv. unfold survivors.
    rewrite filter_In, Hcand, filter_In, accepted_iff.
    unfold near_bar, pitch_diff, beat_diff, tolerance_in_beats,
      Py.fabs, Py.fsub, Py.fdiv, Py.fmul.
    rewrite Z.leb_le. tauto. }
  split; [intros n; reflexivity|].
  split; [exact Hfind|].
  split; [intros n; apply score_exact_match|].
  split; [intros n; apply score_nonneg|].
  split; [|split; reflexivity].
  intros best z Hbest Hz Hzero. rewrite Hbest in Hfind.
  destruct Hfind as (i & _ & Hmin & _).
  apply In_nth_error in Hz as [j Hj].
  apply Qle_antisym.
  - rewrite <- Hzero. eapply Hmin; exact Hj.
  - apply score_nonneg.
Qed.

Lemma find_closest_note_spec_witness :
  exists best,
    find_closest_note sample_session 64 0 1 = Some best /\
    note best = 64 /\
    (score 64 1 best == 0)%Q.
Proof.
  destruct (find_closest_note_spec sample_session 64 0 1)
    as (_ & _ & _ & _ & Hexact & _ & Hzero & _).
  exists (mkNoteEvent 64 90 (1 # 2) (2 # 5) 0 1).
  split; [vm_compute; reflexivity|]. split; [reflexivity|].
  apply (Hzero _ (mkNoteEvent 64 90 (1 # 2) (2 # 5) 0 1)).
  - vm_compute. reflexivity.
  - vm_compute. right. left. reflexivity.
  - apply Hexact; reflexivity.
Defined.

(* ------------------------------------------------------------------ *)
(** ** Session control *)

(** C7, counterexample.  A fresh session has no input device; [start]
    then returns normally: no error of any name reaches the caller. *)
Lemma start_without_input_reports_nothing :
  midi_input init_fields = None /\
  snd (start init_fields 5) = Py.Returned /\
  ~ (exists e, snd (start init_fields 5) = Py.Raised e).
Proof.
  repeat split; try reflexivity.
  intros [e He]. simpl in He. discriminate.
Qed.

(** C7, amended.  Without an input device [start] prints a message and
    returns normally, leaving the object as it was: an idle session stays
    idle (no start instant, not playing) and no listener is launched. *)
Theorem start_without_input_stays_idle (s : DogMidiSystem) (now : Q) :
  midi_input s = None ->
  start s now =
    (s, [Console "No MIDI input device available. Cannot start system."%string],
     Py.Returned) /\
  spawns_listener (snd (fst (start s now))) = false /\
  (idle s -> idle (fst (fst (start s now)))).
Proof.
  intros H. unfold start. rewrite H. simpl.
  repeat split; auto; apply H0.
Qed.

Lemma start_without_input_stays_idle_witness :
  spawns_listener (snd (fst (start init_fields 5))) = false /\
  idle (fst (fst (start init_fields 5))).
Proof.
  destruct (start_without_input_stays_idle init_fields 5 eq_refl)
    as (_ & H2 & H3).
  split; [exact H2 | apply H3; split; reflexivity].
Defined.

(** With an input device [start] does start the session. *)
Lemma start_with_input_runs (s : DogMidiSystem) (now : Q) (h : Handle) :
  midi_input s = Some h ->
  is_playing (fst (fst (start s now))) = true /\
  sys_start_time (fst (fst (start s now))) = Some now /\
  spawns_listener (snd (fst (start s now))) = true.
Proof. intros H. unfold start. rewrite H. repeat split. Qed.

Lemma closes_app (h : Handle) (l1 l2 : list Effect) :
  input_closes h (l1 ++ l2) = (input_closes h l1 + input_closes h l2)%nat /\
  output_closes h (l1 ++ l2) = (output_closes h l1 + output_closes h l2)%nat /\
  quits (l1 ++ l2) = (quits l1 + quits l2)%nat.
Proof.
  unfold input_closes, output_closes, quits, count_occ_pred.
  now rewrite !filter_app, !length_app.
Qed.

Section Stop.

Variable lib : Library.

(** A run of calls that returns has made them all. *)
Lemma call_all_returned (calls past : list Effect) :
  snd (call_all lib past calls) = Py.Returned ->
  fst (call_all lib past calls) = calls.
Proof.
  revert past. induction calls as [|c rest IH]; intros past H;
    [reflexivity|].
  simpl in *. destruct (lib past c); [|discriminate].
  specialize (IH (past ++ [c])).
  destruct (call_all lib (past ++ [c]) rest) as [made how].
  simpl in *. now rewrite IH.
Qed.

(** A run of calls always makes the first one. *)
Lemma call_all_head (c : Effect) (rest past : list Effect) :
  hd_error (fst (call_all lib past (c :: rest))) = Some c.
Proof.
  simpl. destruct (lib past c); [|reflexivity].
  now destruct (call_all lib (past ++ [c]) rest).
Qed.

Lemma stop_calls_counts (s : DogMidiSystem) (h : Handle) :
  input_closes h (stop_calls s) = (if holds h (midi_input s) then 1 else 0)%nat
  /\ output_closes h (stop_calls s)
     = (if holds h (midi_output s) then 1 else 0)%nat
  /\ quits (stop_calls s) = 1%nat.
Proof.
  unfold stop_calls, holds, input_closes, output_closes, quits,
    count_occ_pred.
  destruct (midi_input s) as [hi|], (midi_output s) as [ho|]; simpl;
    try destruct (Nat.eqb h hi); try destruct (Nat.eqb h ho); auto.
Qed.

Lemma stop_calls_first (s : DogMidiSystem) :
  exists c rest, stop_calls s = c :: rest /\
    c = match midi_input s, midi_output s with
        | Some h, _ => InputClose h
        | None, Some h => OutputClose h
        | None, None => MidiQuit
        end.
Proof.
  unfold stop_calls.
  destruct (midi_input s) as [hi|], (midi_output s) as [ho|]; simpl;
    eexists; eexists; split; reflexivity.
Qed.

Lemma stop_in_returned (s : DogMidiSystem) (past : list Effect) :
  snd (stop_in lib past s) = Py.Returned ->
  snd (fst (stop_in lib past s)) =
    stop_calls s ++ [Console "Dog MIDI System stopped!"%string].
Proof.
  unfold stop_in.
  pose proof (call_all_returned (stop_calls s) past) as H.
  destruct (call_all lib past (stop_calls s)) as [made how].
  simpl in *. intros E. subst how. now rewrite (H eq_refl).
Qed.

End Stop.

(** [stop] is [stop_in] on a library whose calls return. *)
Lemma stop_in_forgiving (s : DogMidiSystem) (past : list Effect) :
  stop_in forgiving past s = (fst (stop s), snd (stop s), Py.Returned).
Proof.
  unfold stop_in, stop, stop_calls, forgiving.
  destruct (midi_input s), (midi_output s); reflexivity.
Qed.

(** C6, counterexample.  On a session with an open input handle, two
    calls of [stop] in a row either raise or release the handle twice,
    whatever the library does.  On a library whose calls all return the
    two calls return and input handle 0 is closed twice; on a library
    that raises when a handle is closed after [quit], the second call
    raises. *)
Lemma stop_twice_raises_or_closes_twice :
  midi_input sample_session = Some 0%nat /\
  (snd (stop_twice_in forgiving sample_session) = Py.Returned /\
   input_closes 0%nat (snd (fst (stop_twice_in forgiving sample_session)))
   = 2%nat) /\
  (snd (stop_in strict [] sample_session) = Py.Returned /\
   snd (stop_twice_in strict sample_session)
   = Py.Raised "RuntimeError"%string) /\
  (forall lib : Library,
     ~ (snd (stop_twice_in lib sample_session) = Py.Returned /\
        (input_closes 0%nat (snd (fst (stop_twice_in lib sample_session)))
         <= 1)%nat)).
Proof.
  split; [reflexivity|]. split; [split; reflexivity|].
  split; [split; reflexivity|].
  intros lib [Hret Hcount].
  unfold stop_twice_in in Hret, Hcount.
  pose proof (stop_in_returned lib sample_session []) as H1.
  destruct (stop_in lib [] sample_session) as [[s1 t1] how1] eqn:E1.
  assert (Hs1 : s1 = set_is_playing sample_session false).
  { unfold stop_in in E1.
    destruct (call_all lib [] (stop_calls sample_session)).
    now injection E1 as <- _ _. }
  simpl in H1. destruct how1 as [|e]; [|simpl in Hret; discriminate].
  specialize (H1 eq_refl).
  pose proof (stop_in_returned lib s1 t1) as H2.
  destruct (stop_in lib t1 s1) as [[s2 t2] how2] eqn:E2.
  simpl in H2, Hret, Hcount. specialize (H2 Hret).
  rewrite H1, H2, Hs1 in Hcount. vm_compute in Hcount. lia.
Qed.

(** C6, amended.  A call of [stop] clears [is_playing] and changes no
    other field, whether it returns or raises, so two calls in a row
    leave the object as one call does.  A call that returns has closed
    each handle that is present once and called [quit] once.  The
    release is not idempotent: the handle fields are never cleared, so
    the second call starts the same calls again, beginning with the
    close of the same handle; either one of them raises and the second
    call ends on that error, or they all return and each handle that is
    present has been closed twice and [quit] called twice. *)
Theorem stop_twice_repeats_the_release (lib : Library) (s : DogMidiSystem) :
  let one := stop_in lib [] s in
  let two := stop_twice_in lib s in
  fst (fst one) = set_is_playing s false /\
  fst (fst two) = fst (fst one) /\
  (snd one = Py.Returned ->
     snd (fst one) =
       stop_calls s ++ [Console "Dog MIDI System stopped!"%string] /\
     forall h,
       input_closes h (snd (fst one))
       = (if holds h (midi_input s) then 1 else 0)%nat /\
       output_closes h (snd (fst one))
       = (if holds h (midi_output s) then 1 else 0)%nat /\
       quits (snd (fst one)) = 1%nat) /\
  (snd one = Py.Returned ->
     exists t2 c rest,
       snd (fst two) = snd (fst one) ++ t2 /\
       stop_calls s = c :: rest /\
       c = match midi_input s, midi_output s with
           | Some h, _ => InputClose h
           | None, Some h => OutputClose h
           | None, None => MidiQuit
           end /\
       hd_error t2 = Some c /\
       (snd two = Py.Returned -> t2 = snd (fst one))) /\
  (snd one = Py.Returned ->
     (exists e, snd two = Py.Raised e) \/
     (snd two = Py.Returned /\
      forall h,
        input_closes h (snd (fst two))
        = (if holds h (midi_input s) then 2 else 0)%nat /\
        output_closes h (snd (fst two))
        = (if holds h (midi_output s) then 2 else 0)%nat /\
        quits (snd (fst two)) = 2%nat)) /\
  (forall e, snd one = Py.Raised e -> two = one).
Proof.
  cbv zeta.
  assert (Hfield : forall past s0,
             fst (fst (stop_in lib past s0)) = set_is_playing s0 false).
  { intros past s0. unfold stop_in.
    now destruct (call_all lib past (stop_calls s0)). }
  assert (Hcalls : stop_calls (set_is_playing s false) = stop_calls s)
    by reflexivity.
  pose proof (Hfield [] s) as F1.
  pose proof (stop_in_returned lib s []) as R1.
  unfold stop_twice_in.
  destruct (stop_in lib [] s) as [[s1 t1] how1] eqn:E1.
  simpl in F1, R1. subst s1.
  assert (Hcount1 : how1 = Py.Returned -> forall h,
             input_closes h t1 = (if holds h (midi_input s) then 1 else 0)%nat
             /\ output_closes h t1
                = (if holds h (midi_output s) then 1 else 0)%nat
             /\ quits t1 = 1%nat).
  { intros E h. rewrite (R1 E).
    destruct (closes_app h (stop_calls s)
                [Console "Dog MIDI System stopped!"%string])
      as (A1 & A2 & A3).
    destruct (stop_calls_counts s h) as (C1 & C2 & C3).
    rewrite A1, A2, A3, C1, C2, C3.
    destruct (holds h (midi_input s)), (holds h (midi_output s));
      repeat split; reflexivity. }
  destruct how1 as [|e1].
  - pose proof (Hfield t1 (set_is_playing s false)) as F2.
    pose proof (stop_in_returned lib (set_is_playing s false) t1) as R2.
    destruct (stop_calls_first s) as (c & rest & Hc & Hfirst).
    assert (Hhead : hd_error (snd (fst (stop_in lib t1
                                          (set_is_playing s false))))
                    = Some c).
    { unfold stop_in. rewrite Hcalls, Hc.
      pose proof (call_all_head lib c rest t1) as Hh.
      destruct (call_all lib t1 (c :: rest)) as [made how]. simpl in *.
      destruct made as [|m made']; [discriminate|]. exact Hh. }
    destruct (stop_in lib t1 (set_is_playing s false))
      as [[s2 t2] how2] eqn:E2.
    simpl in F2, R2, Hhead |- *. rewrite Hcalls in R2.
    split; [reflexivity|]. split; [exact F2|].
    split; [intros _; split; [now apply R1 | now apply Hcount1]|].
    split.
    { intros _. exists t2, c, rest.
      split; [reflexivity|]. split; [exact Hc|]. split; [exact Hfirst|].
      split; [exact Hhead|]. intros E. rewrite (R2 E), (R1 eq_refl).
      reflexivity. }
    split; [|intros e He; discriminate].
    intros _. destruct how2 as [|e2]; [right | left; now exists e2].
    split; [reflexivity|]. intros h.
    specialize (R2 eq_refl). rewrite R2.
    destruct (closes_app h t1
                (stop_calls s ++ [Console "Dog MIDI System stopped!"%string]))
      as (A1 & A2 & A3).
    rewrite <- (R1 eq_refl) in A1, A2, A3.
    rewrite <- (R1 eq_refl).
    destruct (Hcount1 eq_refl h) as (C1 & C2 & C3).
    rewrite A1, A2, A3, C1, C2, C3.
    destruct (holds h (midi_input s)), (holds h (midi_output s));
      repeat split; reflexivity.
  - simpl. split; [reflexivity|]. split; [reflexivity|].
    split; [intros E; discriminate|]. split; [intros E; discriminate|].
    split; [intros E; discriminate|]. intros e He. reflexivity.
Qed.

Lemma stop_twice_repeats_the_release_witness :
  snd (stop_in strict [] sample_session) = Py.Returned /\
  (forall h,
     input_closes h (snd (fst (stop_in strict [] sample_session)))
     = (if holds h (midi_input sample_session) then 1 else 0)%nat) /\
  hd_error
    (skipn (length (snd (fst (stop_in strict [] sample_session))))
           (snd (fst (stop_twice_in strict sample_session))))
  = Some (InputClose 0%nat).
Proof.
  destruct (stop_twice_repeats_the_release strict sample_session)
    as (_ & _ & H3 & H4 & _).
  split; [reflexivity|]. split.
  - intros h. apply (H3 eq_refl).
  - destruct (H4 eq_refl) as (t2 & c & rest & Ht & Hc & Hfirst & Hhd & _).
    rewrite Ht, skipn_app, Nat.sub_diag, skipn_all. simpl.
    rewrite Hhd, Hfirst. reflexivity.
Defined.

(* ------------------------------------------------------------------ *)
(** ** The position clock and the positions the loader stores *)

Section Position.

Lemma int_of_integer (z : Z) : Py.int (inject_Z z) = z.
Proof.
  unfold Py.int. destruct (Qle_bool 0 (inject_Z z));
    [apply Qfloor_Z | apply Qceiling_Z].
Qed.

(** The bar is the floor of the beats elapsed over the beats of a bar. *)
Lemma bar_of_floor (tempo0 : Q) (bpb : Z) (t : Q) :
  bar_of tempo0 bpb t = Qfloor (t / (60 / tempo0) / inject_Z bpb).
Proof. unfold bar_of, Py.floordiv. apply int_of_integer. Qed.

Lemma beat_of_floor (tempo0 : Q) (bpb : Z) (t : Q) :
  beat_of tempo0 bpb t =
    (t / (60 / tempo0)
     - inject_Z (bar_of tempo0 bpb t) * inject_Z bpb)%Q.
Proof. rewrite bar_of_floor. reflexivity. Qed.



Lemma floor_unique (x : Q) (k : Z) :
  (inject_Z k <= x)%Q -> (x < inject_Z (k + 1))%Q -> Qfloor x = k.
Proof.
  intros Hlo Hhi. apply Z.le_antisymm.
  - assert (H : (inject_Z (Qfloor x) < inject_Z (k + 1))%Q)
      by (eapply Qle_lt_trans; [apply Qfloor_le | exact Hhi]).
    rewrite <- Zlt_Qlt in H. lia.
  - rewrite <- (Qfloor_Z k). now apply Qfloor_resp_le.
Qed.

Lemma beat_duration_pos (tempo0 : Q) : (0 < tempo0)%Q -> (0 < 60 / tempo0)%Q.
Proof.
  intros H. apply Qlt_shift_div_l; [exact H|]. lra.
Qed.

(** For a positive tempo and signature and a time that is not negative:
    the bar is not negative, the beat lies in [[0, beats_per_bar)], and
    bar and beat together give back the beats elapsed. *)
Lemma position_decomposes (tempo0 : Q) (bpb : Z) (t : Q) :
  (0 < tempo0)%Q -> 0 < bpb -> (0 <= t)%Q ->
  0 <= bar_of tempo0 bpb t /\
  (0 <= beat_of tempo0 bpb t)%Q /\
  (beat_of tempo0 bpb t < inject_Z bpb)%Q /\
  (t / (60 / tempo0)
   == inject_Z (bar_of tempo0 bpb t) * inject_Z bpb
      + beat_of tempo0 bpb t)%Q.
Proof.
  intros Ht Hb H0.
  pose proof (beat_duration_pos tempo0 Ht) as Hbd.
  assert (HB : (0 < inject_Z bpb)%Q) by (rewrite Zlt_Qlt in Hb; exact Hb).
  set (total := (t / (60 / tempo0))%Q).
  assert (Htot : (0 <= total)%Q).
  { unfold total. apply Qle_shift_div_l; [exact Hbd|]. lra. }
  rewrite beat_of_floor. fold total. rewrite bar_of_floor. fold total.
  set (x := (total / inject_Z bpb)%Q).
  assert (Hx : (total == x * inject_Z bpb)%Q).
  { unfold x. field. lra. }
  pose proof (Qfloor_le x) as Hlo.
  pose proof (Qlt_floor x) as Hhi.
  rewrite inject_Z_plus in Hhi.
  split.
  - rewrite <- (Qfloor_Z 0). apply Qfloor_resp_le.
    unfold x. apply Qle_shift_div_l; [exact HB|].
    change (inject_Z 0) with 0%Q. rewrite Qmult_0_l. exact Htot.
  - assert (H1 : (inject_Z (Qfloor x) * inject_Z bpb <= x * inject_Z bpb)%Q)
      by (apply Qmult_le_compat_r; [exact Hlo | lra]).
    assert (H2 : (x * inject_Z bpb
                  < (inject_Z (Qfloor x) + inject_Z 1) * inject_Z bpb)%Q)
      by (apply Qmult_lt_compat_r; [exact HB | exact Hhi]).
    change (inject_Z 1) with 1%Q in H2.
    repeat split; lra.
Qed.

End Position.

Lemma clock_started (s : DogMidiSystem) (t0 now : Q) :
  sys_start_time s = Some t0 -> ~ (t0 == 0)%Q ->
  get_current_position s now =
    (bar_of (tempo s) (fst (time_signature s)) (now - t0),
     beat_of (tempo s) (fst (time_signature s)) (now - t0)).
Proof.
  intros Hs Hz. unfold get_current_position. rewrite Hs.
  destruct (Qeq_bool t0 0) eqn:E; [|reflexivity].
  apply Qeq_bool_iff in E. contradiction.
Qed.



(** X2.  With a positive tempo and signature the bar that a started
    clock reads never goes down as time passes. *)
Theorem clock_bar_monotone (s : DogMidiSystem) (t0 now1 now2 : Q) :
  sys_start_time s = Some t0 -> ~ (t0 == 0)%Q ->
  (0 < tempo s)%Q -> 0 < fst (time_signature s) -> (now1 <= now2)%Q ->
  fst (get_current_position s now1) <= fst (get_current_position s now2).
Proof.
  intros Hs Hz Ht Hb Hle.
  rewrite !(clock_started s t0 _ Hs Hz). cbn [fst].
  rewrite !bar_of_floor. apply Qfloor_resp_le.
  pose proof (beat_duration_pos (tempo s) Ht) as Hbd.
  assert (HB : (0 < inject_Z (fst (time_signature s)))%Q)
    by (rewrite Zlt_Qlt in Hb; exact Hb).
  unfold Qdiv at 1 3.
  apply Qmult_le_compat_r;
    [|apply Qlt_le_weak, Qinv_lt_0_compat; exact HB].
  unfold Qdiv at 1 3.
  apply Qmult_le_compat_r;
    [lra | apply Qlt_le_weak, Qinv_lt_0_compat; exact Hbd].
Qed.

Lemma clock_bar_monotone_witness :
  let s := set_start_time sample_session (Some 1000%Q) in
  fst (get_current_position s 1001%Q)
  <= fst (get_current_position s (10025 # 10)%Q).
Proof.
  cbv zeta.
  apply (clock_bar_monotone (set_start_time sample_session (Some 1000%Q))
           1000%Q 1001%Q (10025 # 10)%Q eq_refl).
  - intros E. vm_compute in E. discriminate.
  - reflexivity.
  - reflexivity.
  - vm_compute. discriminate.
Defined.

(* ------------------------------------------------------------------ *)
(** ** More on the loader *)

Section Loader.

Variable s : DogMidiSystem.
Variable tempi : list Q.
Variable instruments : list Instrument.

Hypothesis fresh : original_notes s = [].
Hypothesis decodes : load_raises (PrettyMIDI tempi instruments) = false.

Let s' := load_midi_file s (PrettyMIDI tempi instruments).

(** What a successful load leaves in the object. *)
Lemma load_ok_fields :
  original_notes s' =
    sort_by_start_time
      (map (note_event_of (tempo s') (fst (time_signature s)))
           (melodic_notes instruments)) /\
  time_signature s' = time_signature s /\
  midi_input s' = midi_input s /\
  sys_start_time s' = sys_start_time s /\
  (tempo s' = tempo s \/ (In (tempo s') tempi /\ ~ (tempo s' == 0)%Q)).
Proof.
  unfold s', load_midi_file. unfold load_raises in decodes.
  destruct (array_truth tempi) as [b|] eqn:Eb; [|discriminate].
  destruct b.
  - cbn. rewrite fresh. cbn.
    repeat split; try reflexivity.
    right. destruct tempi as [|t [|t2 rest]]; try discriminate.
    cbn in Eb |- *. injection Eb as Eb. apply negb_true_iff in Eb.
    split; [left; reflexivity|].
    intros E. apply Qeq_bool_iff in E. congruence.
  - cbn. rewrite fresh. cbn. repeat split; try reflexivity. now left.
Qed.

Lemma load_ok_in (n : NoteEvent) :
  In n (original_notes s') <->
  exists raw, In raw (melodic_notes instruments) /\
              n = note_event_of (tempo s') (fst (time_signature s)) raw.
Proof.
  destruct load_ok_fields as (Hn & _). rewrite Hn. split.
  - intros H.
    apply (Permutation_in _ (Permutation_sym (sort_by_start_time_perm _)))
      in H.
    apply in_map_iff in H as (raw & <- & Hraw). now exists raw.
  - intros (raw & Hraw & ->).
    apply (Permutation_in _ (sort_by_start_time_perm _)).
    apply in_map_iff. now exists raw.
Qed.

End Loader.


Lemma enumerate_from_sorted {A : Type} (l : list A) (i : nat) :
  StronglySorted (fun p q => (fst p <= fst q)%nat) (Py.enumerate_from i l) /\
  Forall (fun p => (i <= fst p)%nat) (Py.enumerate_from i l).
Proof.
  revert i. induction l as [|x l IH]; intros i; simpl.
  - split; constructor.
  - destruct (IH (S i)) as [H1 H2]. split.
    + constructor; [exact H1|].
      eapply Forall_impl; [|exact H2]. simpl. intros p Hp. lia.
    + constructor; [simpl; lia|].
      eapply Forall_impl; [|exact H2]. simpl. intros p Hp. lia.
Qed.

Lemma map_sorted {A B : Type} (R : A -> A -> Prop) (R' : B -> B -> Prop)
  (f : A -> B) (l : list A) :
  (forall a b, R a b -> R' (f a) (f b)) ->
  StronglySorted R l -> StronglySorted R' (map f l).
Proof.
  intros Hf. induction 1 as [|x l Hs IH Hall]; simpl; constructor.
  - exact IH.
  - apply Forall_map. eapply Forall_impl; [|exact Hall]. intros b. apply Hf.
Qed.

(** The fallback melody is in time order when the tempo is positive. *)
Lemma fallback_notes_sorted (t : Q) :
  (0 < t)%Q -> StronglySorted starts_before (fallback_notes t).
Proof.
  intros Ht. unfold fallback_notes, Py.enumerate.
  eapply map_sorted; [|apply enumerate_from_sorted].
  intros [i a] [j b] Hij. simpl in Hij. unfold starts_before. simpl.
  apply Qmult_le_compat_r.
  - rewrite <- Zle_Qle. lia.
  - apply Qlt_le_weak, beat_duration_pos, Ht.
Qed.

Lemma setup_output_keeps (s : DogMidiSystem) (devs : list Device) :
  original_notes (setup_output s devs) = original_notes s /\
  melody_index (setup_output s devs) = melody_index s /\
  midi_input (setup_output s devs) = midi_input s /\
  is_playing (setup_output s devs) = is_playing s /\
  sys_start_time (setup_output s devs) = sys_start_time s.
Proof.
  unfold setup_output.
  destruct (first_device _ 0 devs) as [o|]; [|repeat split].
  destruct (device_opens devs o); repeat split.
Qed.

Lemma setup_keeps (s : DogMidiSystem) (devs : list Device) :
  original_notes (setup_midi_devices s devs) = original_notes s /\
  melody_index (setup_midi_devices s devs) = melody_index s /\
  is_playing (setup_midi_devices s devs) = is_playing s /\
  sys_start_time (setup_midi_devices s devs) = sys_start_time s.
Proof.
  unfold setup_midi_devices.
  destruct (first_device dev_input 0 devs) as [i|].
  - destruct (device_opens devs i); [|repeat split].
    destruct (setup_output_keeps (set_midi_input s (Some i)) devs)
      as (H1 & H2 & _ & H4 & H5).
    rewrite H1, H2, H4, H5. repeat split.
  - destruct (setup_output_keeps s devs) as (H1 & H2 & _ & H4 & H5).
    rewrite H1, H2, H4, H5. repeat split.
Qed.




(** X5.  Positions of a loaded melody.  When the file decodes, the
    tempo in force is positive (the session's and the file's) and every
    raw note starts at a time that is not negative and ends no earlier
    than it starts, every note of the melody has a start time, a
    duration and a bar that are not negative and a beat in
    [[0, beats_per_bar)]. *)
Theorem loaded_positions_in_range
  (s : DogMidiSystem) (tempi : list Q) (instruments : list Instrument) :
  original_notes s = [] ->
  load_raises (PrettyMIDI tempi instruments) = false ->
  (0 < tempo s)%Q ->
  Forall (fun t => (0 <= t)%Q) tempi ->
  0 < fst (time_signature s) ->
  Forall (fun raw => (0 <= raw_start raw)%Q /\ (raw_start raw <= raw_end raw)%Q)
         (melodic_notes instruments) ->
  Forall (fun n => (0 <= start_time n)%Q /\ (0 <= duration n)%Q /\
                   0 <= bar n /\
                   (0 <= beat n)%Q /\
                   (beat n < inject_Z (fst (time_signature s)))%Q)
         (original_notes (load_midi_file s (PrettyMIDI tempi instruments))).
Proof.
  intros Hfresh Hok Ht Htempi Hb Hraw.
  destruct (load_ok_fields s tempi instruments Hfresh Hok)
    as (_ & _ & _ & _ & Htempo).
  set (s' := load_midi_file s (PrettyMIDI tempi instruments)) in *.
  assert (Ht' : (0 < tempo s')%Q).
  { destruct Htempo as [-> | [Hin Hnz]]; [exact Ht|].
    rewrite Forall_forall in Htempi. specialize (Htempi _ Hin).
    destruct (Qlt_le_dec 0 (tempo s')) as [Hlt|Hle]; [exact Hlt|].
    exfalso. apply Hnz. now apply Qle_antisym. }
  apply Forall_forall. intros n Hn.
  apply (load_ok_in s tempi instruments Hfresh Hok) in Hn
    as (raw & Hin & ->).
  fold s'. rewrite Forall_forall in Hraw.
  destruct (Hraw raw Hin) as [H0 H1].
  destruct (position_decomposes (tempo s') (fst (time_signature s))
              (raw_start raw) Ht' Hb H0) as (P1 & P2 & P3 & _).
  cbn [note_event_of start_time duration bar beat].
  repeat split; try assumption. lra.
Qed.

Lemma loaded_positions_in_range_witness :
  Forall (fun n => (0 <= start_time n)%Q /\ (0 <= duration n)%Q /\
                   0 <= bar n /\
                   (0 <= beat n)%Q /\ (beat n < 4)%Q)
         (original_notes
            (load_midi_file init_fields
               (PrettyMIDI [90%Q]
                  [mkInstrument false
                     [mkRawNote 64 90 (3 # 2) 2; mkRawNote 60 80 0 1]]))).
Proof.
  apply (loaded_positions_in_range init_fields [90%Q]
           [mkInstrument false
              [mkRawNote 64 90 (3 # 2) 2; mkRawNote 60 80 0 1]]
           eq_refl eq_refl).
  - reflexivity.
  - repeat constructor. discriminate.
  - reflexivity.
  - repeat constructor; discriminate.
Defined.

(** X6.  Whatever the decoder makes of the file and whatever devices
    there are, the object that the constructor builds has a reference
    melody in ascending order of start time: the loaded notes are
    sorted, and the fallback scale is built in order. *)
Theorem constructed_melody_sorted (d : Decoded) (devs : list Device) :
  StronglySorted starts_before (original_notes (new_system d devs)).
Proof.
  unfold new_system.
  destruct (setup_keeps (load_midi_file init_fields d) devs) as (-> & _).
  destruct (load_raises d) eqn:E.
  - rewrite (load_raises_fallback init_fields d E).
    unfold create_fallback_melody. simpl.
    apply fallback_notes_sorted. reflexivity.
  - destruct d as [|tempi ins]; [discriminate|].
    destruct (load_ok_fields init_fields tempi ins eq_refl E) as (-> & _).
    apply sort_by_start_time_sorted.
Qed.





(* ------------------------------------------------------------------ *)
(** ** More on the nearest match *)

Section MatchMore.

Variable s : DogMidiSystem.
Variable input_note current_bar : Z.
Variable current_beat : Q.

Let sc := score input_note current_beat.
Let surv := survivors s input_note current_bar current_beat.

(** The note returned is a survivor of least score; nothing is returned
    only when there is no survivor. *)
Lemma find_closest_note_least :
  match find_closest_note s input_note current_bar current_beat with
  | None => surv = []
  | Some best => In best surv /\ forall m, In m surv -> (sc best <= sc m)%Q
  end.
Proof.
  pose proof (best_so_far_loop s input_note current_beat
                (candidate_notes s current_bar)) as H.
  unfold find_closest_note, surv, survivors.
  destruct (candidate_notes s current_bar) as [|c cs] eqn:Ec;
    [reflexivity|].
  unfold best_so_far in H. cbv zeta in H. fold sc in H.
  destruct (fold_left _ (c :: cs) (None, None)) as [[b|] [q|]];
    simpl fst; try contradiction; [|exact H].
  destruct H as (_ & i & Hi & Hmin & _). split.
  - eapply nth_error_In; exact Hi.
  - intros m Hm. apply In_nth_error in Hm as [j Hj]. eapply Hmin; exact Hj.
Qed.

Lemma survivors_in (n : NoteEvent) :
  In n surv <->
  In n (original_notes s) /\ near_bar current_bar n = true /\
  accepted s input_note current_beat n = true.
Proof.
  unfold surv, survivors, candidate_notes.
  rewrite candidate_loop. simpl. rewrite !filter_In. tauto.
Qed.

(** A score of zero means the very pitch and the very beat. *)
Lemma score_zero_exact (n : NoteEvent) :
  (sc n == 0)%Q -> note n = input_note /\ (beat n == current_beat)%Q.
Proof.
  unfold sc, score, Py.fadd, Py.fmul. intros H. apply fl_zero_inv in H.
  assert (Hpd : (0 <= inject_Z (pitch_diff input_note n))%Q).
  { unfold pitch_diff. change 0%Q with (inject_Z 0). rewrite <- Zle_Qle.
    apply Z.abs_nonneg. }
  assert (Hbd : (0 <= beat_diff current_beat n)%Q) by apply Qabs_nonneg.
  assert (HA : (0 <= Py.fl (inject_Z (pitch_diff input_note n)
                            * weight_pitch))%Q).
  { apply fl_nonneg, Qmult_le_0_compat; [exact Hpd | discriminate]. }
  assert (HB : (0 <= Py.fl (beat_diff current_beat n * weight_beat))%Q).
  { apply fl_nonneg, Qmult_le_0_compat; [exact Hbd | discriminate]. }
  assert (HA0 : (Py.fl (inject_Z (pitch_diff input_note n) * weight_pitch)
                 == 0)%Q) by lra.
  assert (HB0 : (Py.fl (beat_diff current_beat n * weight_beat) == 0)%Q)
    by lra.
  apply fl_zero_inv, Qmult_integral in HA0.
  apply fl_zero_inv, Qmult_integral in HB0.
  split.
  - destruct HA0 as [HA0 | HA0]; [|vm_compute in HA0; discriminate].
    unfold pitch_diff in HA0. unfold Qeq in HA0. simpl in HA0. lia.
  - destruct HB0 as [HB0 | HB0]; [|vm_compute in HB0; discriminate].
    unfold beat_diff, Py.fabs, Py.fsub in HB0.
    pose proof (Qle_Qabs (Py.fl (beat n - current_beat))) as H1.
    pose proof (Qle_Qabs (- Py.fl (beat n - current_beat))) as H2.
    rewrite Qabs_opp in H2.
    assert (Hz : (Py.fl (beat n - current_beat) == 0)%Q) by lra.
    apply fl_zero_inv in Hz. lra.
Qed.

End MatchMore.

(** X9.  When the melody holds, within one bar of the current bar, a
    note of exactly the input pitch at exactly the current beat (and the
    pitch range and the timing tolerance are not negative), the note
    returned has the input pitch and the current beat. *)
Theorem exact_match_is_returned
  (s : DogMidiSystem) (input_note current_bar : Z) (current_beat : Q)
  (z : NoteEvent) :
  In z (original_notes s) ->
  Z.abs (bar z - current_bar) <= 1 ->
  note z = input_note ->
  (beat z == current_beat)%Q ->
  0 <= pitch_correction_range s ->
  (0 <= timing_tolerance s * tempo s / 60)%Q ->
  exists best,
    find_closest_note s input_note current_bar current_beat = Some best /\
    In best (original_notes s) /\
    note best = input_note /\ (beat best == current_beat)%Q.
Proof.
  intros Hin Hbar Hp Hb Hrange Htol.
  assert (Hz0 : (score input_note current_beat z == 0)%Q)
    by (apply score_exact_match; assumption).
  assert (Hsurv : In z (survivors s input_note current_bar current_beat)).
  { apply survivors_in. split; [exact Hin|]. split.
    - unfold near_bar. now apply Z.leb_le.
    - apply accepted_iff. unfold pitch_diff.
      rewrite Hp, Z.sub_diag. simpl Z.abs. split; [exact Hrange|].
      rewrite (beat_diff_exact_match current_beat z Hb).
      now apply tolerance_sign. }
  pose proof (find_closest_note_least s input_note current_bar current_beat)
    as H.
  destruct (find_closest_note s input_note current_bar current_beat)
    as [best|].
  - destruct H as [Hbest Hmin]. exists best. split; [reflexivity|].
    split; [apply survivors_in in Hbest; tauto|].
    apply score_zero_exact. apply Qle_antisym.
    + rewrite <- Hz0. now apply Hmin.
    + apply score_nonneg.
  - rewrite H in Hsurv. contradiction.
Qed.

Lemma exact_match_is_returned_witness :
  exists best,
    find_closest_note sample_session 67 1 2 = Some best /\
    note best = 67 /\ (beat best == 2)%Q.
Proof.
  destruct (exact_match_is_returned sample_session 67 1 2
              (mkNoteEvent 67 100 1 (2 # 5) 0 2))
    as (best & H1 & _ & H3 & H4).
  - right. right. left. reflexivity.
  - vm_compute. discriminate.
  - reflexivity.
  - reflexivity.
  - vm_compute. discriminate.
  - vm_compute. discriminate.
  - exists best. auto.
Defined.

(** X10.  Nothing is in reach, and [None] is returned, when the melody
    is empty, when the pitch correction range is negative, or when the
    timing tolerance in beats is negative. *)
Theorem nothing_in_reach
  (s : DogMidiSystem) (input_note current_bar : Z) (current_beat : Q) :
  original_notes s = [] \/
  pitch_correction_range s < 0 \/
  (timing_tolerance s * tempo s / 60 < 0)%Q ->
  find_closest_note s input_note current_bar current_beat = None.
Proof.
  intros H.
  pose proof (find_closest_note_least s input_note current_bar current_beat)
    as Hf.
  destruct (find_closest_note s input_note current_bar current_beat)
    as [best|]; [|reflexivity].
  exfalso. destruct Hf as [Hbest _].
  apply survivors_in in Hbest as (Hin & _ & Hacc).
  apply accepted_iff in Hacc as [Hp Hb].
  destruct H as [H | [H | H]].
  - rewrite H in Hin. contradiction.
  - unfold pitch_diff in Hp.
    pose proof (Z.abs_nonneg (note best - input_note)). lia.
  - pose proof (Qabs_nonneg (Py.fsub (beat best) current_beat)) as Hn.
    apply tolerance_sign in H.
    unfold beat_diff, Py.fabs in Hb. lra.
Qed.

Lemma nothing_in_reach_witness :
  find_closest_note init_fields 60 0 0 = None /\
  find_closest_note
    (configure sample_session 120 (1 # 2) (-1) (1 # 10)) 60 0 0 = None.
Proof.
  split.
  - apply nothing_in_reach. left. reflexivity.
  - apply nothing_in_reach. right. left. reflexivity.
Defined.

(* ------------------------------------------------------------------ *)
(** ** More on the randomness *)

(** X11.  A call of [apply_randomness] makes one draw when the jitter is
    not applied and three when it is, and it only moves along the
    source: with a factor of 0 it always makes one draw, with a factor
    of 1 always three. *)
Theorem apply_randomness_draws
  (s : DogMidiSystem) (n v : Z) (r : Random) :
  let r' := snd (apply_randomness s n v r) in
  tape r' = tape r /\
  pos r' =
    (if Py.flt (fst (random r)) (randomness_factor s)
     then pos r + 3 else pos r + 1)%nat /\
  ((randomness_factor s == 0)%Q -> pos r' = (pos r + 1)%nat) /\
  ((randomness_factor s == 1)%Q -> pos r' = (pos r + 3)%nat).
Proof.
  cbv zeta.
  assert (H : tape (snd (apply_randomness s n v r)) = tape r /\
              pos (snd (apply_randomness s n v r)) =
                (if Py.flt (fst (random r)) (randomness_factor s)
                 then pos r + 3 else pos r + 1)%nat).
  { unfold apply_randomness, random, randint, draw. cbn [fst snd].
    destruct (Py.flt _ (randomness_factor s)); cbn; split;
      try reflexivity; lia. }
  destruct H as [H1 H2]. split; [exact H1|]. split; [exact H2|].
  split; intros Hf; rewrite H2.
  - now rewrite (never_below_zero _ r Hf).
  - now rewrite (always_below_one _ r Hf).
Qed.

(** X12.  The clamps sit on the jitter branch only.  For any integers,
    in range or not: when the draw is not below the factor the pair
    comes back as it was given, and when it is below the factor the
    pitch returned lies in [0,127] and the velocity in [1,127]. *)
Theorem apply_randomness_clamps_only_jitter
  (s : DogMidiSystem) (n v : Z) (r : Random) :
  let res := fst (apply_randomness s n v r) in
  (Py.flt (fst (random r)) (randomness_factor s) = false -> res = (n, v)) /\
  (Py.flt (fst (random r)) (randomness_factor s) = true ->
     midi_pitch (fst res) /\ midi_velocity (snd res)) /\
  ((randomness_factor s == 0)%Q -> res = (n, v)).
Proof.
  cbv zeta.
  assert (H : if Py.flt (fst (random r)) (randomness_factor s)
              then midi_pitch (fst (fst (apply_randomness s n v r))) /\
                   midi_velocity (snd (fst (apply_randomness s n v r)))
              else fst (apply_randomness s n v r) = (n, v)).
  { unfold apply_randomness, random, randint, draw. cbn [fst snd].
    destruct (Py.flt _ (randomness_factor s)); cbn [fst snd];
      [|reflexivity].
    unfold midi_pitch, midi_velocity. lia. }
  split; [|split].
  - intros E. now rewrite E in H.
  - intros E. now rewrite E in H.
  - intros Hf. now rewrite (never_below_zero _ r Hf) in H.
Qed.

(* ------------------------------------------------------------------ *)
(** ** More on the live path *)

Section LivePath.

Lemma result_eta (x : Result) :
  mkResult (sys x) (rnd x) (effects x) (ended x) = x.
Proof. now destruct x. Qed.

(** The call on a melody with a note under the cursor, in full. *)
Lemma process_input_note_picked
  (s : DogMidiSystem) (p v : Z) (r : Random) :
  (cursor s < length (original_notes s))%nat ->
  exists ne,
    nth_error (original_notes s) (cursor s) = Some ne /\
    let ar := apply_randomness s (note ne) (velocity ne) r in
    let next := ((cursor s + 1) mod length (original_notes s))%nat in
    process_input_note s p v r =
      mkResult (set_melody_index s (Some next)) (snd ar)
        ((match midi_output s with
          | Some h => [NoteOn h (fst (fst ar)) (snd (fst ar));
                       TimerNoteOff (1 # 2) (fst (fst ar)) 0]
          | None => []
          end)
         ++ [ConsoleStep next (length (original_notes s)) (fst (fst ar))])
        Py.Returned.
Proof.
  intros Hc. destruct (next_in_melody_picks s Hc) as (ne & Hnth & Hstep).
  exists ne. split; [exact Hnth|]. cbv zeta.
  unfold process_input_note. rewrite Hstep.
  change (apply_randomness
            (set_melody_index s
               (Some ((cursor s + 1) mod length (original_notes s))%nat)))
    with (apply_randomness s).
  destruct (apply_randomness s (note ne) (velocity ne) r) as [[cn cv] r1].
  reflexivity.
Qed.

Lemma process_input_note_ok (s : DogMidiSystem) (p v : Z) (r : Random) :
  cursor_ok s ->
  ended (process_input_note s p v r) = Py.Returned /\
  cursor_ok (sys (process_input_note s p v r)) /\
  original_notes (sys (process_input_note s p v r)) = original_notes s /\
  midi_output (sys (process_input_note s p v r)) = midi_output s.
Proof.
  intros [He | Hc].
  - unfold process_input_note. rewrite (next_in_melody_empty s He).
    cbn. repeat split; try reflexivity. left. exact He.
  - destruct (process_input_note_picked s p v r Hc) as (ne & _ & ->).
    cbn. repeat split. right. cbn.
    apply Nat.mod_upper_bound. lia.
Qed.

Lemma process_events_cons (s : DogMidiSystem) (r : Random)
  (e : Z * Z * Z) (rest : list (Z * Z * Z)) :
  process_events s r (e :: rest) =
    if is_note_on e then
      let res := process_input_note s (snd (fst e)) (snd e) r in
      match ended res with
      | Py.Raised _ => res
      | Py.Returned =>
          let res' := process_events (sys res) (rnd res) rest in
          mkResult (sys res') (rnd res') (effects res ++ effects res')
                   (ended res')
      end
    else process_events s r rest.
Proof. destruct e as [[status n] v]. reflexivity. Qed.

(** On a session that cannot raise, a batch of messages is the sequence
    of calls for its note-on messages. *)
Lemma process_events_feed (events : list (Z * Z * Z)) :
  forall (s : DogMidiSystem) (r : Random),
    cursor_ok s ->
    let res := process_events s r events in
    ended res = Py.Returned /\
    (sys res, rnd res) = feed s r (triggers_of events) /\
    cursor_ok (sys res) /\
    original_notes (sys res) = original_notes s /\
    midi_output (sys res) = midi_output s.
Proof.
  induction events as [|e rest IH]; intros s r Hok; cbv zeta.
  - cbn. repeat split; assumption.
  - rewrite process_events_cons. unfold triggers_of. simpl filter.
    destruct (is_note_on e) eqn:E.
    + cbv zeta.
      destruct (process_input_note_ok s (snd (fst e)) (snd e) r Hok)
        as (Hend & Hok' & Hn & Hout).
      rewrite Hend.
      destruct (IH _ (rnd (process_input_note s (snd (fst e)) (snd e) r))
                   Hok') as (H1 & H2 & H3 & H4 & H5).
      cbn [sys rnd ended effects]. simpl map. simpl feed.
      unfold triggers_of in H2.
      repeat split; try assumption; congruence.
    + apply IH. exact Hok.
Qed.

Lemma per_call_timers (s : DogMidiSystem) (p v : Z) (r : Random) :
  timers (effects (process_input_note s p v r)) =
    map (fun pv => ((1 # 2)%Q, fst pv, 0))
        (emitted (effects (process_input_note s p v r))).
Proof.
  unfold process_input_note.
  destruct (next_in_melody s) as [s1 [|ne|]]; try reflexivity.
  destruct (apply_randomness s1 (note ne) (velocity ne) r) as [[cn cv] r1].
  destruct (midi_output s1); reflexivity.
Qed.

Lemma timers_app (l1 l2 : list Effect) :
  timers (l1 ++ l2) = timers l1 ++ timers l2.
Proof. apply flat_map_app. Qed.

Lemma emitted_app (l1 l2 : list Effect) :
  emitted (l1 ++ l2) = emitted l1 ++ emitted l2.
Proof. apply flat_map_app. Qed.

(** Jitter keeps a note that MIDI can carry close to where it was. *)
Lemma apply_randomness_near (s : DogMidiSystem) (n v : Z) (r : Random) :
  midi_pitch n -> midi_velocity v ->
  midi_pitch (fst (fst (apply_randomness s n v r))) /\
  midi_velocity (snd (fst (apply_randomness s n v r))) /\
  Z.abs (fst (fst (apply_randomness s n v r)) - n) <= 2 /\
  Z.abs (snd (fst (apply_randomness s n v r)) - v) <= 10.
Proof.
  unfold midi_pitch, midi_velocity. intros Hn Hv.
  unfold apply_randomness.
  destruct (random r) as [u r1].
  destruct (Py.flt u (randomness_factor s)); [|cbn; lia].
  pose proof (randint_range (-2) 2 r1 ltac:(lia)) as Hd1.
  destruct (randint (-2) 2 r1) as [d1 r2]. cbn [fst] in Hd1.
  pose proof (randint_range (-10) 10 r2 ltac:(lia)) as Hd2.
  destruct (randint (-10) 10 r2) as [d2 r3]. cbn [fst] in Hd2.
  cbn [fst snd]. lia.
Qed.

End LivePath.

Lemma process_input_note_fields (s : DogMidiSystem) (p v : Z) (r : Random) :
  midi_output (sys (process_input_note s p v r)) = midi_output s /\
  randomness_factor (sys (process_input_note s p v r)) = randomness_factor s.
Proof.
  rewrite process_input_note_sys. unfold next_in_melody.
  destruct (melody_index s); cbn [original_notes set_melody_index];
    destruct (original_notes s); try (split; reflexivity);
    destruct (nth_error _ _); split; reflexivity.
Qed.

Lemma feed_fields (triggers : list (Z * Z)) :
  forall (s : DogMidiSystem) (r : Random),
    midi_output (fst (feed s r triggers)) = midi_output s /\
    randomness_factor (fst (feed s r triggers)) = randomness_factor s.
Proof.
  induction triggers as [|[p v] rest IH]; intros s r; [split; reflexivity|].
  simpl feed.
  destruct (IH (sys (process_input_note s p v r))
               (rnd (process_input_note s p v r))) as [H1 H2].
  destruct (process_input_note_fields s p v r) as [F1 F2].
  split; congruence.
Qed.

Lemma apply_randomness_factor (a b : DogMidiSystem) (n v : Z) (r : Random) :
  randomness_factor a = randomness_factor b ->
  apply_randomness a n v r = apply_randomness b n v r.
Proof. intros H. unfold apply_randomness. now rewrite H. Qed.

(** C3.  On a non-empty melody of length [N] with the cursor inside it,
    whatever the triggers fed so far ([k] of them) and whatever the next
    trigger [(p, v)] is: the next call reads [melody[(cursor + k) mod N]]
    and leaves the cursor at [(cursor + k + 1) mod N]; what the call
    sends is that note, passed through [apply_randomness]: a note-on
    and its note-off timer on the output handle, then the console line
    (with a randomness factor of 0, the pitch and velocity of the
    melody note as they are); after [N] calls the call reads the same
    note as the first call did. *)
Theorem sequential_advance_cycles
  (s : DogMidiSystem) (triggers : list (Z * Z)) (r : Random) (p v : Z) :
  original_notes s <> [] ->
  (cursor s < length (original_notes s))%nat ->
  let N := length (original_notes s) in
  let k := length triggers in
  let s_k := fst (feed s r triggers) in
  let r_k := snd (feed s r triggers) in
  let next := ((cursor s + k + 1) mod N)%nat in
  exists ne,
    nth_error (original_notes s) ((cursor s + k) mod N) = Some ne /\
    next_in_melody s_k = (set_melody_index s_k (Some next), Picked ne) /\
    sys (process_input_note s_k p v r_k) =
      set_melody_index s_k (Some next) /\
    ended (process_input_note s_k p v r_k) = Py.Returned /\
    (let ar := apply_randomness s (note ne) (velocity ne) r_k in
     rnd (process_input_note s_k p v r_k) = snd ar /\
     effects (process_input_note s_k p v r_k) =
       (match midi_output s with
        | Some h => [NoteOn h (fst (fst ar)) (snd (fst ar));
                     TimerNoteOff (1 # 2) (fst (fst ar)) 0]
        | None => []
        end)
       ++ [ConsoleStep next N (fst (fst ar))]) /\
    ((randomness_factor s == 0)%Q ->
     emitted (effects (process_input_note s_k p v r_k)) =
       match midi_output s with
       | Some _ => [(note ne, velocity ne)]
       | None => []
       end) /\
    (k = N -> snd (next_in_melody s_k) = snd (next_in_melody s)).
Proof.
  intros Hne Hc N k s_k r_k next.
  destruct (feed_cursor triggers s r Hc) as [Hnotes Hcur].
  destruct (feed_fields triggers s r) as [Hout Hfac].
  fold s_k in Hnotes, Hcur, Hout, Hfac. fold N k in Hcur.
  assert (HN : N <> O) by (unfold N; lia).
  assert (Hck : (cursor s_k < length (original_notes s_k))%nat).
  { rewrite Hnotes, Hcur. now apply Nat.mod_upper_bound. }
  destruct (next_in_melody_picks s_k Hck) as (ne & Hnth & Hstep).
  destruct (process_input_note_picked s_k p v r_k Hck)
    as (ne' & Hnth' & Hcall).
  assert (ne' = ne) by congruence. subst ne'. clear Hnth'.
  cbv zeta in Hcall.
  rewrite Hnotes in Hnth, Hstep, Hcall. fold N in Hstep, Hcall.
  rewrite Hcur in Hnth, Hstep, Hcall.
  rewrite Nat.Div0.add_mod_idemp_l in Hstep, Hcall.
  fold next in Hstep, Hcall.
  rewrite Hout in Hcall.
  rewrite (apply_randomness_factor s_k s _ _ _ Hfac) in Hcall.
  exists ne. split; [exact Hnth|]. split; [exact Hstep|].
  rewrite Hcall. cbn [sys rnd effects ended].
  split; [reflexivity|]. split; [reflexivity|].
  split; [split; reflexivity|]. split.
  - intros Hf. rewrite emitted_app.
    assert (E : fst (apply_randomness s (note ne) (velocity ne) r_k)
                = (note ne, velocity ne)).
    { unfold apply_randomness.
      pose proof (never_below_zero _ r_k Hf) as Hz.
      destruct (random r_k) as [u r1]. cbn [fst] in Hz. now rewrite Hz. }
    rewrite E. cbn [fst snd]. destruct (midi_output s); reflexivity.
  - intros Hk. rewrite Hstep. simpl snd.
    destruct (next_in_melody_picks s Hc) as (ne0 & Hnth0 & Hstep0).
    rewrite Hstep0. simpl snd. f_equal.
    rewrite Hk in Hnth.
    replace ((cursor s + N) mod N)%nat with (cursor s) in Hnth.
    + congruence.
    + rewrite <- Nat.Div0.add_mod_idemp_r, Nat.Div0.mod_same, Nat.add_0_r.
      symmetry. now apply Nat.mod_small.
Qed.

Lemma sequential_advance_cycles_witness :
  let s := with_randomness sample_session 0 in
  let after := feed s sample_random [(1, 1); (127, 64); (40, 9)] in
  exists ne,
    nth_error three_notes 0 = Some ne /\
    note ne = 60 /\
    snd (next_in_melody (fst after)) = Picked ne /\
    snd (next_in_melody s) = Picked ne /\
    emitted (effects (process_input_note (fst after) 5 5 (snd after)))
    = [(60, 80)].
Proof.
  cbv zeta.
  destruct (sequential_advance_cycles (with_randomness sample_session 0)
              [(1, 1); (127, 64); (40, 9)] sample_random 5 5)
    as (ne & H1 & H2 & _ & _ & _ & H6 & H7).
  - discriminate.
  - vm_compute. lia.
  - exists ne. simpl in H1. injection H1 as <-.
    split; [reflexivity|]. split; [reflexivity|].
    split; [rewrite H2; reflexivity|].
    split; [rewrite <- (H7 eq_refl), H2; reflexivity|].
    apply H6. reflexivity.
Defined.

(** X13.  The listener drops every message that is not a note-on with a
    positive velocity (status outside 144..159, or velocity 0 or less):
    a batch of such messages leaves the object and the random source as
    they were, sends nothing and prints nothing. *)
Theorem listener_discards_other_messages
  (s : DogMidiSystem) (r : Random) (events : list (Z * Z * Z)) :
  Forall (fun e => fst (fst e) < 144 \/ 159 < fst (fst e) \/ snd e <= 0)
         events ->
  process_events s r events = mkResult s r [] Py.Returned.
Proof.
  induction 1 as [|e rest He _ IH]; [reflexivity|].
  rewrite process_events_cons.
  assert (E : is_note_on e = false).
  { destruct e as [[status n] v]. cbn in He |- *.
    rewrite !andb_false_iff, !Z.leb_gt, Z.gtb_ltb, Z.ltb_ge. tauto. }
  now rewrite E.
Qed.

Lemma listener_discards_other_messages_witness :
  process_events sample_session sample_random
    [(128, 60, 64); (144, 60, 0); (176, 7, 100); (160, 60, 90)]
  = mkResult sample_session sample_random [] Py.Returned.
Proof.
  apply listener_discards_other_messages.
  repeat constructor; cbn; lia.
Defined.



(** X15.  Batch boundaries do not matter: on a session that cannot
    raise, one batch made of two runs of messages gives the object, the
    random source and the trace of the two runs processed one after the
    other. *)
Theorem listener_batches_compose
  (s : DogMidiSystem) (r : Random) (e1 e2 : list (Z * Z * Z)) :
  cursor_ok s ->
  let r1 := process_events s r e1 in
  let r2 := process_events (sys r1) (rnd r1) e2 in
  process_events s r (e1 ++ e2) =
    mkResult (sys r2) (rnd r2) (effects r1 ++ effects r2) (ended r2).
Proof.
  revert s r. induction e1 as [|e rest IH]; intros s r Hok; cbv zeta.
  - cbn. symmetry. apply result_eta.
  - rewrite <- app_comm_cons, !process_events_cons.
    destruct (is_note_on e); [|apply IH; exact Hok].
    cbv zeta.
    destruct (process_input_note_ok s (snd (fst e)) (snd e) r Hok)
      as (Hend & Hok' & _).
    rewrite Hend. rewrite (IH _ _ Hok'). cbn [sys rnd effects ended].
    now rewrite app_assoc.
Qed.

Lemma listener_batches_compose_witness :
  let r1 := process_events sample_session sample_random [(144, 3, 4)] in
  process_events sample_session sample_random
    ([(144, 3, 4)] ++ [(150, 7, 7); (128, 1, 1)])
  = let r2 := process_events (sys r1) (rnd r1) [(150, 7, 7); (128, 1, 1)] in
    mkResult (sys r2) (rnd r2) (effects r1 ++ effects r2) (ended r2).
Proof.
  apply (listener_batches_compose sample_session sample_random
           [(144, 3, 4)] [(150, 7, 7); (128, 1, 1)]).
  right. vm_compute. lia.
Defined.

(** X16.  On a melody of [N] notes with the cursor inside it, a batch
    with [k] note-on messages moves the cursor [k] places round the
    melody and sends exactly [k] note-ons when an output handle is there,
    none when it is not: without an output the melody still advances. *)
Theorem listener_sends_one_note_per_note_on
  (s : DogMidiSystem) (r : Random) (events : list (Z * Z * Z)) :
  (cursor s < length (original_notes s))%nat ->
  let res := process_events s r events in
  let k := length (triggers_of events) in
  cursor (sys res) = ((cursor s + k) mod length (original_notes s))%nat /\
  length (emitted (effects res)) =
    match midi_output s with Some _ => k | None => O end.
Proof.
  intros Hc. cbv zeta. split.
  - destruct (process_events_feed events s r (or_intror Hc))
      as (_ & Hfeed & _).
    destruct (feed_cursor (triggers_of events) s r Hc) as [_ Hcur].
    rewrite <- Hfeed in Hcur. exact Hcur.
  - revert s r Hc. induction events as [|e rest IH]; intros s r Hc.
    + cbn. now destruct (midi_output s).
    + rewrite process_events_cons. unfold triggers_of. simpl filter.
      destruct (is_note_on e); [|apply IH; exact Hc].
      cbv zeta.
      destruct (process_input_note_ok s (snd (fst e)) (snd e) r
                  (or_intror Hc)) as (Hend & Hok' & Hn & Hout).
      rewrite Hend. cbn [effects]. rewrite emitted_app, length_app.
      assert (Hc' : (cursor (sys (process_input_note s (snd (fst e))
                                    (snd e) r))
                     < length (original_notes
                                 (sys (process_input_note s (snd (fst e))
                                         (snd e) r))))%nat).
      { destruct Hok' as [He | H]; [|exact H].
        rewrite Hn in He. rewrite He in Hc. simpl in Hc. lia. }
      rewrite (IH _ _ Hc'), Hout. unfold triggers_of.
      destruct (process_input_note_picked s (snd (fst e)) (snd e) r Hc)
        as (ne & _ & ->).
      cbn [effects]. rewrite emitted_app.
      destruct (midi_output s); reflexivity.
Qed.

Lemma listener_sends_one_note_per_note_on_witness :
  let res := process_events sample_session sample_random
               [(144, 3, 4); (144, 5, 0); (150, 7, 7); (128, 1, 1)] in
  cursor (sys res) = 2%nat /\ length (emitted (effects res)) = 2%nat.
Proof.
  apply (listener_sends_one_note_per_note_on sample_session sample_random
           [(144, 3, 4); (144, 5, 0); (150, 7, 7); (128, 1, 1)]).
  vm_compute. lia.
Defined.

(** X17.  Every note-on comes with its note-off: in the trace of any
    batch, on any session, the timers are, in order, one per note-on
    sent, each for the pitch of its note-on, with a delay of half a
    second and velocity 0. *)
Theorem every_note_on_has_its_note_off
  (s : DogMidiSystem) (r : Random) (events : list (Z * Z * Z)) :
  timers (effects (process_events s r events)) =
    map (fun pv => ((1 # 2)%Q, fst pv, 0))
        (emitted (effects (process_events s r events))).
Proof.
  revert s r. induction events as [|e rest IH]; intros s r;
    [reflexivity|].
  rewrite process_events_cons.
  destruct (is_note_on e); [|apply IH].
  cbv zeta.
  pose proof (per_call_timers s (snd (fst e)) (snd e) r) as Hcall.
  destruct (ended (process_input_note s (snd (fst e)) (snd e) r));
    [|exact Hcall].
  cbn [effects]. now rewrite timers_app, emitted_app, map_app, Hcall, IH.
Qed.

(** X18.  When every note of the melody has a pitch in [0,127] and a
    velocity in [1,127], so has every note-on the listener sends, and
    each is within 2 semitones and 10 velocity steps of a note of the
    melody. *)
Theorem sent_notes_stay_near_melody
  (s : DogMidiSystem) (r : Random) (events : list (Z * Z * Z)) :
  cursor_ok s ->
  Forall (fun ne => midi_pitch (note ne) /\ midi_velocity (velocity ne))
         (original_notes s) ->
  Forall (fun pv =>
            midi_pitch (fst pv) /\ midi_velocity (snd pv) /\
            exists ne, In ne (original_notes s) /\
                       Z.abs (fst pv - note ne) <= 2 /\
                       Z.abs (snd pv - velocity ne) <= 10)
         (emitted (effects (process_events s r events))).
Proof.
  intros Hok Hmel. revert s r Hok Hmel.
  induction events as [|e rest IH]; intros s r Hok Hmel; [constructor|].
  rewrite process_events_cons.
  destruct (is_note_on e); [|apply IH; assumption].
  cbv zeta.
  destruct (process_input_note_ok s (snd (fst e)) (snd e) r Hok)
    as (Hend & Hok' & Hn & _).
  rewrite Hend. cbn [effects]. rewrite emitted_app.
  apply Forall_app. split.
  - destruct Hok as [He | Hc].
    + unfold process_input_note. rewrite (next_in_melody_empty s He).
      constructor.
    + destruct (process_input_note_picked s (snd (fst e)) (snd e) r Hc)
        as (ne & Hnth & ->).
      cbn [effects]. rewrite emitted_app.
      apply nth_error_In in Hnth.
      rewrite Forall_forall in Hmel. destruct (Hmel ne Hnth) as [Hp Hv].
      destruct (apply_randomness_near s (note ne) (velocity ne) r Hp Hv)
        as (A1 & A2 & A3 & A4).
      destruct (midi_output s); [|constructor].
      cbn. constructor; [|constructor].
      cbn [fst snd]. split; [exact A1|]. split; [exact A2|].
      exists ne. auto.
  - rewrite <- Hn. apply IH; [exact Hok' | now rewrite Hn].
Qed.

Lemma sent_notes_stay_near_melody_witness :
  Forall (fun pv => midi_pitch (fst pv) /\ midi_velocity (snd pv))
         (emitted (effects
            (process_events (with_randomness sample_session 1)
               sample_random [(144, 3, 4); (150, 7, 7)]))).
Proof.
  eapply Forall_impl;
    [|apply (sent_notes_stay_near_melody (with_randomness sample_session 1)
               sample_random [(144, 3, 4); (150, 7, 7)])].
  - intros pv (H1 & H2 & _). split; assumption.
  - right. vm_compute. lia.
  - unfold midi_pitch, midi_velocity. repeat constructor; cbn; lia.
Defined.

(** X19.  The listener of a constructed and started session never
    raises, whatever the file, the devices and the messages: the cursor
    never leaves the melody, and the melody is never changed. *)
Theorem started_session_never_raises
  (d : Decoded) (devs : list Device) (now : Q) (r : Random)
  (events : list (Z * Z * Z)) :
  let s := fst (fst (start (new_system d devs) now)) in
  let res := process_events s r events in
  ended res = Py.Returned /\
  original_notes (sys res) = original_notes (new_system d devs) /\
  cursor_ok (sys res).
Proof.
  cbv zeta.
  set (s0 := new_system d devs).
  assert (H0 : melody_index s0 = None).
  { unfold s0, new_system.
    destruct (setup_keeps (load_midi_file init_fields d) devs)
      as (_ & -> & _).
    destruct d as [|tempi ins]; [reflexivity|]. cbn.
    destruct (array_truth tempi) as [[|]|]; reflexivity. }
  assert (Hs : original_notes (fst (fst (start s0 now))) = original_notes s0
               /\ melody_index (fst (fst (start s0 now))) = None).
  { unfold start. destruct (midi_input s0); cbn; auto. }
  destruct Hs as [Hn Hm].
  assert (Hok : cursor_ok (fst (fst (start s0 now)))).
  { unfold cursor_ok, cursor. rewrite Hm.
    destruct (original_notes (fst (fst (start s0 now)))); [now left|].
    right. simpl. lia. }
  destruct (process_events_feed events _ r Hok) as (H1 & _ & H3 & H4 & _).
  split; [exact H1|]. split; [now rewrite H4|exact H3].
Qed.

(* ------------------------------------------------------------------ *)
(** ** Device setup *)

Section Devices.

Variable f : Device -> bool.

Lemma first_device_some (devs : list Device) (k i : nat) :
  first_device f k devs = Some i ->
  (k <= i)%nat /\
  (exists dv, nth_error devs (i - k) = Some dv /\ f dv = true) /\
  (forall j dj, (j < i - k)%nat -> nth_error devs j = Some dj ->
                f dj = false).
Proof.
  revert k. induction devs as [|d rest IH]; intros k H; [discriminate|].
  simpl in H. destruct (f d) eqn:E.
  - injection H as <-. rewrite Nat.sub_diag. split; [lia|]. split.
    + exists d. split; [reflexivity | exact E].
    + intros j dj Hj. lia.
  - apply IH in H as (Hk & (dv & Hnth & Hdv) & Hbefore).
    split; [lia|].
    replace (i - k)%nat with (S (i - S k)) by lia. split.
    + exists dv. split; [exact Hnth | exact Hdv].
    + intros [|j] dj Hj Hnj; simpl in Hnj.
      * injection Hnj as <-. exact E.
      * apply (Hbefore j dj); [lia | exact Hnj].
Qed.

Lemma first_device_none (devs : list Device) (k : nat) :
  first_device f k devs = None <-> Forall (fun d => f d = false) devs.
Proof.
  revert k. induction devs as [|d rest IH]; intros k; simpl.
  - split; [constructor | reflexivity].
  - destruct (f d) eqn:E.
    + split; [discriminate|]. intros H. inversion H. congruence.
    + rewrite IH. split; [now constructor | intros H; now inversion H].
Qed.

Lemma first_device_app (pre post : list Device) (dv : Device) (k : nat) :
  Forall (fun d => f d = false) pre -> f dv = true ->
  first_device f k (pre ++ dv :: post) = Some (k + length pre)%nat.
Proof.
  revert k. induction pre as [|d pre IH]; intros k Hpre Hdv; simpl.
  - rewrite Hdv. f_equal. lia.
  - inversion Hpre as [|? ? Hd Hrest]; subst. rewrite Hd.
    rewrite IH by assumption. f_equal. lia.
Qed.

End Devices.

Lemma new_system_handles (d : Decoded) (devs : list Device) :
  midi_input (new_system d devs) =
    match first_device dev_input 0 devs with
    | Some i => if device_opens devs i then Some i else None
    | None => None
    end /\
  midi_output (new_system d devs) =
    match first_device dev_input 0 devs with
    | Some i =>
        if device_opens devs i then
          match first_device (fun x => negb (dev_input x)) 0 devs with
          | Some o => if device_opens devs o then Some o else None
          | None => None
          end
        else None
    | None =>
        match first_device (fun x => negb (dev_input x)) 0 devs with
        | Some o => if device_opens devs o then Some o else None
        | None => None
        end
    end.
Proof.
  unfold new_system.
  assert (H0 : midi_input (load_midi_file init_fields d) = None /\
               midi_output (load_midi_file init_fields d) = None).
  { destruct d as [|tempi ins]; [split; reflexivity|]. cbn.
    destruct (array_truth tempi) as [[|]|]; split; reflexivity. }
  destruct H0 as [Hi Ho].
  unfold setup_midi_devices, setup_output.
  destruct (first_device dev_input 0 devs) as [i|];
    [destruct (device_opens devs i)|];
    destruct (first_device (fun x => negb (dev_input x)) 0 devs) as [o|];
    try destruct (device_opens devs o); cbn; auto.
Qed.

Lemma new_system_input_first
  (d : Decoded) (devs : list Device) (i : nat) :
  midi_input (new_system d devs) = Some i ->
  (exists dv, nth_error devs i = Some dv /\
              dev_input dv = true /\ dev_opens dv = true) /\
  (forall j dj, (j < i)%nat -> nth_error devs j = Some dj ->
                dev_input dj = false).
Proof.
  destruct (new_system_handles d devs) as [-> _].
  destruct (first_device dev_input 0 devs) as [i0|] eqn:E; [|discriminate].
  destruct (device_opens devs i0) eqn:Eo; [|discriminate].
  intros H. injection H as <-.
  apply first_device_some in E as (_ & (dv & Hnth & Hdv) & Hbefore).
  rewrite Nat.sub_0_r in Hnth, Hbefore.
  split; [|exact Hbefore].
  exists dv. repeat split; try assumption.
  unfold device_opens in Eo. now rewrite Hnth in Eo.
Qed.

(** X20.  The input handle of a constructed object is the first device
    of the table that is an input: it has its input flag on, it opened,
    and no device before it has the input flag on. *)
Theorem input_is_first_input_device
  (d : Decoded) (devs : list Device) (i : nat) :
  midi_input (new_system d devs) = Some i ->
  (exists dv, nth_error devs i = Some dv /\
              dev_input dv = true /\ dev_opens dv = true) /\
  (forall j dj, (j < i)%nat -> nth_error devs j = Some dj ->
                dev_input dj = false).
Proof.
  intros Hi.
  destruct (new_system_input_first d devs i Hi) as [Hdev Hbefore].
  split; [exact Hdev | exact Hbefore].
Qed.

Lemma input_is_first_input_device_witness :
  exists dv,
    nth_error [mkDevice false true; mkDevice true true; mkDevice true true]
              1 = Some dv /\
    dev_input dv = true /\ dev_opens dv = true.
Proof.
  destruct (input_is_first_input_device DecodeError
              [mkDevice false true; mkDevice true true; mkDevice true true]
              1%nat eq_refl) as [H _].
  exact H.
Defined.

(** X21.  The output handle of a constructed object is the first device
    whose input flag is off, and it is never the device of the input
    handle. *)
Theorem output_is_first_output_device
  (d : Decoded) (devs : list Device) (o : nat) :
  midi_output (new_system d devs) = Some o ->
  (exists dv, nth_error devs o = Some dv /\
              dev_input dv = false /\ dev_opens dv = true) /\
  (forall j dj, (j < o)%nat -> nth_error devs j = Some dj ->
                dev_input dj = true) /\
  midi_input (new_system d devs) <> Some o.
Proof.
  intros Ho.
  assert (Hout : exists dv, nth_error devs o = Some dv /\
                            dev_input dv = false /\ dev_opens dv = true).
  { destruct (new_system_handles d devs) as [_ H]. rewrite H in Ho.
    assert (Hf : first_device (fun x => negb (dev_input x)) 0 devs = Some o
                 /\ device_opens devs o = true).
    { destruct (first_device dev_input 0 devs) as [i|];
        [destruct (device_opens devs i); [|discriminate]|];
        destruct (first_device (fun x => negb (dev_input x)) 0 devs)
          as [o'|]; try discriminate;
        destruct (device_opens devs o') eqn:E; try discriminate;
        injection Ho as <-; auto. }
    destruct Hf as [Hf Hopen].
    apply first_device_some in Hf as (_ & (dv & Hnth & Hdv) & _).
    rewrite Nat.sub_0_r in Hnth. exists dv.
    apply negb_true_iff in Hdv. repeat split; try assumption.
    unfold device_opens in Hopen. now rewrite Hnth in Hopen. }
  split; [exact Hout|]. split.
  - destruct (new_system_handles d devs) as [_ H]. rewrite H in Ho.
    assert (Hf : first_device (fun x => negb (dev_input x)) 0 devs = Some o).
    { destruct (first_device dev_input 0 devs) as [i|];
        [destruct (device_opens devs i); [|discriminate]|];
        destruct (first_device (fun x => negb (dev_input x)) 0 devs)
          as [o'|]; try discriminate;
        destruct (device_opens devs o'); try discriminate;
        injection Ho as <-; reflexivity. }
    apply first_device_some in Hf as (_ & _ & Hbefore).
    rewrite Nat.sub_0_r in Hbefore.
    intros j dj Hj Hnj. specialize (Hbefore j dj Hj Hnj).
    now apply negb_false_iff in Hbefore.
  - intros Hi. apply new_system_input_first in Hi
      as [(dv & Hnth & Hin & _) _].
    destruct Hout as (dv' & Hnth' & Hin' & _). congruence.
Qed.

Lemma output_is_first_output_device_witness :
  midi_input
    (new_system DecodeError
       [mkDevice true true; mkDevice false true; mkDevice false true])
  <> Some 1%nat.
Proof.
  apply (output_is_first_output_device DecodeError
           [mkDevice true true; mkDevice false true; mkDevice false true]
           1%nat eq_refl).
Defined.

Lemma new_system_without_input
  (d : Decoded) (devs : list Device) (now : Q) :
  Forall (fun dv => dev_input dv = false) devs ->
  let s := new_system d devs in
  midi_input s = None /\
  fst (fst (start s now)) = s /\
  spawns_listener (snd (fst (start s now))) = false /\
  is_playing s = false /\ sys_start_time s = None.
Proof.
  intros Hdevs. cbv zeta.
  assert (Hi : midi_input (new_system d devs) = None).
  { destruct (new_system_handles d devs) as [-> _].
    apply (first_device_none dev_input devs 0) in Hdevs. now rewrite Hdevs. }
  split; [exact Hi|].
  unfold start. rewrite Hi. cbn [fst snd].
  split; [reflexivity|]. split; [reflexivity|].
  unfold new_system.
  destruct (setup_keeps (load_midi_file init_fields d) devs)
    as (_ & _ & -> & ->).
  destruct d as [|tempi ins]; [split; reflexivity|]. cbn.
  destruct (array_truth tempi) as [[|]|]; split; reflexivity.
Qed.

(** X22.  When no device of the table is an input, the constructed
    object has no input handle, and [start] on it prints its message and
    returns at once with the object unchanged: not playing, no start
    instant, no listener. *)
Theorem no_input_device_no_start
  (d : Decoded) (devs : list Device) (now : Q) :
  Forall (fun dv => dev_input dv = false) devs ->
  let s := new_system d devs in
  midi_input s = None /\
  fst (fst (start s now)) = s /\
  spawns_listener (snd (fst (start s now))) = false /\
  is_playing s = false /\ sys_start_time s = None.
Proof.
  intros Hdevs s.
  destruct (new_system_without_input d devs now Hdevs)
    as (H1 & H2 & H3 & H4 & H5).
  split; [exact H1|]. split; [exact H2|]. split; [exact H3|].
  split; [exact H4 | exact H5].
Qed.

Lemma no_input_device_no_start_witness :
  let s := new_system DecodeError [mkDevice false true] in
  midi_input s = None /\ midi_output s = Some 0%nat /\
  fst (fst (start s 5)) = s.
Proof.
  destruct (no_input_device_no_start DecodeError [mkDevice false true] 5)
    as (H1 & H2 & _).
  - repeat constructor.
  - cbv zeta. split; [exact H1|]. split; [reflexivity | exact H2].
Defined.

(** X23.  When the first input device of the table fails to open, the
    exception leaves the setup: the object gets no input handle and no
    output handle either, whatever output devices the table holds. *)
Theorem failed_input_open_skips_output
  (d : Decoded) (pre post : list Device) (dv : Device) :
  Forall (fun x => dev_input x = false) pre ->
  dev_input dv = true -> dev_opens dv = false ->
  midi_input (new_system d (pre ++ dv :: post)) = None /\
  midi_output (new_system d (pre ++ dv :: post)) = None.
Proof.
  intros Hpre Hin Hopen.
  destruct (new_system_handles d (pre ++ dv :: post)) as [-> ->].
  rewrite (first_device_app dev_input pre post dv 0 Hpre Hin).
  assert (E : device_opens (pre ++ dv :: post) (0 + length pre) = false).
  { unfold device_opens. simpl.
    rewrite nth_error_app2, Nat.sub_diag by lia. exact Hopen. }
  rewrite E. split; reflexivity.
Qed.

Lemma failed_input_open_skips_output_witness :
  midi_output
    (new_system DecodeError
       [mkDevice false true; mkDevice true false; mkDevice true true])
  = None.
Proof.
  apply (failed_input_open_skips_output DecodeError
           [mkDevice false true] [mkDevice true true] (mkDevice true false)).
  - repeat constructor.
  - reflexivity.
  - reflexivity.
Defined.

(* ------------------------------------------------------------------ *)
(** ** The control panel *)

Section Panel.

Lemma deque_append_last {A : Type} (n : nat) (q : list A) (x : A) :
  (0 < n)%nat -> (length q <= n)%nat ->
  deque_append n q x = skipn (length (q ++ [x]) - n) (q ++ [x]) /\
  (length (deque_append n q x) <= n)%nat.
Proof.
  intros Hn Hq. unfold deque_append.
  destruct n as [|n']; [lia|].
  rewrite length_app. simpl length.
  destruct (length q <? S n')%nat eqn:E.
  - apply Nat.ltb_lt in E.
    replace (length q + 1 - S n')%nat with O by lia. simpl skipn.
    split; [reflexivity|]. rewrite length_app. simpl. lia.
  - apply Nat.ltb_ge in E.
    replace (length q + 1 - S n')%nat with 1%nat by lia.
    destruct q as [|y q']; [simpl in E; lia|]. simpl.
    split; [reflexivity|]. rewrite length_app. simpl in *. lia.
Qed.

Lemma skipn_last_app {A : Type} (l : list A) (x : A) (n : nat) :
  (0 < n)%nat ->
  skipn (length (skipn (length l - n) l ++ [x]) - n)
        (skipn (length l - n) l ++ [x])
  = skipn (length (l ++ [x]) - n) (l ++ [x]).
Proof.
  intros Hn. rewrite !length_app, length_skipn. simpl length.
  destruct (Nat.le_gt_cases (length l) n) as [Hle | Hgt].
  - replace (length l - n)%nat with O by lia. simpl skipn.
    now rewrite Nat.sub_0_r.
  - set (k := (length l - n)%nat).
    replace (length l - k + 1 - n)%nat with 1%nat by lia.
    replace (length l + 1 - n)%nat with (S k) by lia.
    rewrite !skipn_app, length_skipn, skipn_skipn.
    replace (1 - (length l - k))%nat with O by lia.
    replace (S k - length l)%nat with O by lia.
    reflexivity.
Qed.

End Panel.

(** X24.  The note history is bounded: starting from a history of at
    most 50 entries, after any run of calls of [add_note_to_history] it
    holds at most 50 entries, namely the most recent ones of the old
    history followed by the added entries, in order. *)
Theorem history_keeps_last_fifty (g : DogMidiGUI) (es : list HistoryEntry) :
  (length (note_history g) <= 50)%nat ->
  let all := note_history g ++ es in
  note_history (history_after g es) = skipn (length all - 50) all /\
  (length (note_history (history_after g es)) <= 50)%nat /\
  gui_system (history_after g es) = gui_system g /\
  is_running (history_after g es) = is_running g.
Proof.
  intros Hlen. cbv zeta.
  induction es as [|e es IH] using rev_ind.
  - simpl. rewrite app_nil_r.
    replace (length (note_history g) - 50)%nat with O by lia.
    repeat split; auto.
  - destruct IH as (IH1 & IH2 & IH3 & IH4).
    unfold history_after in *. rewrite fold_left_app.
    set (g1 := fold_left _ es g) in *. cbn [fold_left].
    unfold add_note_to_history. cbn [note_history gui_system is_running].
    destruct (deque_append_last 50 _
                (mkHistoryEntry (entry_time e) (entry_note e)
                                (entry_velocity e))
                ltac:(lia) IH2) as [Hd1 Hd2].
    assert (Ee : mkHistoryEntry (entry_time e) (entry_note e)
                                (entry_velocity e) = e) by now destruct e.
    rewrite Ee in Hd1, Hd2.
    rewrite Ee. split; [|repeat split; assumption].
    rewrite Hd1, IH1, app_assoc. apply skipn_last_app. lia.
Qed.

Lemma history_keeps_last_fifty_witness :
  note_history
    (history_after new_gui
       (map (fun k => mkHistoryEntry (inject_Z k) 60 80)
            [1; 2; 3; 4; 5; 6; 7; 8; 9; 10; 11; 12; 13; 14; 15; 16; 17;
             18; 19; 20; 21; 22; 23; 24; 25; 26; 27; 28; 29; 30; 31; 32;
             33; 34; 35; 36; 37; 38; 39; 40; 41; 42; 43; 44; 45; 46; 47;
             48; 49; 50; 51; 52]))
  = map (fun k => mkHistoryEntry (inject_Z k) 60 80)
        [3; 4; 5; 6; 7; 8; 9; 10; 11; 12; 13; 14; 15; 16; 17;
         18; 19; 20; 21; 22; 23; 24; 25; 26; 27; 28; 29; 30; 31; 32;
         33; 34; 35; 36; 37; 38; 39; 40; 41; 42; 43; 44; 45; 46; 47;
         48; 49; 50; 51; 52].
Proof.
  destruct (history_keeps_last_fifty new_gui
              (map (fun k => mkHistoryEntry (inject_Z k) 60 80)
                 [1; 2; 3; 4; 5; 6; 7; 8; 9; 10; 11; 12; 13; 14; 15; 16; 17;
                  18; 19; 20; 21; 22; 23; 24; 25; 26; 27; 28; 29; 30; 31; 32;
                  33; 34; 35; 36; 37; 38; 39; 40; 41; 42; 43; 44; 45; 46; 47;
                  48; 49; 50; 51; 52])) as [H _].
  - simpl. lia.
  - rewrite H. reflexivity.
Defined.

(** X25.  The stop button stops once.  Pressed twice in a row, whatever
    the state of the panel, the second press calls nothing, so over the
    two presses no handle is closed more than once. *)
Theorem stop_button_stops_once (g : DogMidiGUI) (h : Handle) :
  let first := press_stop g in
  let second := press_stop (fst first) in
  snd second = [] /\
  fst second = fst first /\
  (input_closes h (snd first ++ snd second) <= 1)%nat /\
  (output_closes h (snd first ++ snd second) <= 1)%nat.
Proof.
  cbv zeta. unfold press_stop, stop_system.
  destruct g as [[s|] hist [|]]; cbn.
  - rewrite app_nil_r. repeat split.
    + unfold input_closes, count_occ_pred.
      destruct (midi_input s) as [hi|], (midi_output s) as [ho|]; cbn;
        try destruct (Nat.eqb h hi); cbn; lia.
    + unfold output_closes, count_occ_pred.
      destruct (midi_input s) as [hi|], (midi_output s) as [ho|]; cbn;
        try destruct (Nat.eqb h ho); cbn; lia.
  - repeat split; cbn; lia.
  - repeat split; cbn; lia.
  - repeat split; cbn; lia.
Qed.

(** X26.  The panel can show a system that does not run.  When no
    device of the table is an input, the start button still marks the
    panel as running, while the object it holds is not playing, has no
    start instant and no listener; its four parameters are the ones of
    the sliders. *)
Theorem panel_running_without_input
  (d : Decoded) (devs : list Device) (tempo0 tolerance : Q)
  (pitch_range : Z) (randomness now : Q) :
  Forall (fun dv => dev_input dv = false) devs ->
  let pressed := press_start new_gui d devs tempo0 tolerance pitch_range
                             randomness now in
  is_running (fst pressed) = true /\
  spawns_listener (snd pressed) = false /\
  exists s, gui_system (fst pressed) = Some s /\
            is_playing s = false /\ sys_start_time s = None /\
            midi_input s = None /\
            tempo s = tempo0 /\ timing_tolerance s = tolerance /\
            pitch_correction_range s = pitch_range /\
            randomness_factor s = randomness /\
            original_notes s = original_notes (new_system d devs).
Proof.
  intros Hdevs. cbv zeta.
  destruct (new_system_without_input d devs now Hdevs)
    as (Hi & _ & _ & Hp & Hst).
  unfold press_start, start_system. cbn [is_running new_gui].
  unfold start. cbn [midi_input configure]. rewrite Hi.
  cbn. split; [reflexivity|]. split; [reflexivity|].
  eexists. split; [reflexivity|]. cbn. repeat split; assumption.
Qed.

Lemma panel_running_without_input_witness :
  let pressed := press_start new_gui DecodeError [mkDevice false true]
                             100 (1 # 2) 12 (1 # 10) 5 in
  is_running (fst pressed) = true /\ spawns_listener (snd pressed) = false.
Proof.
  destruct (panel_running_without_input DecodeError [mkDevice false true]
              100 (1 # 2) 12 (1 # 10) 5) as (H1 & H2 & _).
  - repeat constructor.
  - split; [exact H1 | exact H2].
Defined.

(** X27.  Before any successful start the clock stands still: a
    constructed object reads bar 0, beat 0 at every instant, and it
    still does after [stop] and after a [start] that found no input
    device. *)
Theorem position_before_start
  (d : Decoded) (devs : list Device) (now later : Q) :
  let s := new_system d devs in
  get_current_position s later = (0, 0%Q) /\
  get_current_position (fst (stop s)) later = (0, 0%Q) /\
  (midi_input s = None ->
   get_current_position (fst (fst (start s now))) later = (0, 0%Q)).
Proof.
  cbv zeta.
  assert (H : sys_start_time (new_system d devs) = None).
  { unfold new_system.
    destruct (setup_keeps (load_midi_file init_fields d) devs)
      as (_ & _ & _ & ->).
    destruct d as [|tempi ins]; [reflexivity|]. cbn.
    destruct (array_truth tempi) as [[|]|]; reflexivity. }
  assert (H0 : get_current_position (new_system d devs) later = (0, 0%Q))
    by (unfold get_current_position; now rewrite H).
  split; [exact H0|]. split.
  - unfold get_current_position, stop. cbn. now rewrite H.
  - intros Hi. unfold start. rewrite Hi. exact H0.
Qed.
